(** * LensKit algorithm protocol: a model of [lenskit/algorithms/__init__.py]

    Definitions come first:

    - [Frames]: the pandas tables that cross the boundary of
      [Predictor.predict] (index labels, columns, grouping, left join,
      label-based selection);
    - [Predict]: the [Predictor] capability and the default aggregator
      [predict], in a monad that logs the calls made to [predict_for_user]
      and carries Python exceptions;
    - [Objects]: Python objects on a heap (classes, instance dictionaries,
      references) with [Algorithm.get_params], [Algorithm.load] and
      [Recommender.adapt];
    - [Fixtures]: concrete tables, predictors and heaps.

    The theorems follow in [FramesFacts], [PredictFacts] and
    [ObjectsFacts]. *)

From Stdlib Require Import ZArith QArith.QArith_base.
From stdpp Require Import gmap strings list fin_maps.

#[local] Set Warnings "-clear-no-such-hyp".

Local Open Scope Z_scope.

(** ** Python results and effects *)

Inductive exn : Type :=
  | NotImplementedError
  | ValueError
  | KeyError
  | TypeError
  | AttributeError
  | RecursionError
  | OtherError (msg : string).

#[global] Instance exn_eq_dec : EqDecision exn.
Proof. solve_decision. Defined.

Inductive result (A : Type) : Type :=
  | Ok (a : A)
  | Raise (e : exn).
Arguments Ok {A} a.
Arguments Raise {A} e.

(** A computation over a state [S] that returns or raises. *)
Definition SE (S A : Type) : Type := S → S * result A.

#[global] Instance SE_ret {S} : MRet (SE S) := λ A a s, (s, Ok a).
#[global] Instance SE_bind {S} : MBind (SE S) := λ A B k m s,
  match m s with
  | (s', Ok a) => k a s'
  | (s', Raise e) => (s', Raise e)
  end.

Definition raise {S A} (e : exn) : SE S A := λ s, (s, Raise e).
Definition lift {S A} (r : result A) : SE S A := λ s, (s, r).
Definition gets {S A} (f : S → A) : SE S A := λ s, (s, Ok (f s)).
Definition modify {S} (f : S → S) : SE S unit := λ s, (f s, Ok tt).

(** Decidable facts about concrete data are settled by evaluation. *)
Ltac by_compute := apply (bool_decide_unpack _); vm_compute; exact I.

(** A [for] loop that threads an accumulator. *)
Fixpoint for_each {S A B} (xs : list A) (body : A → B → SE S B) (acc : B) : SE S B :=
  match xs with
  | [] => mret acc
  | x :: xs' => acc' ← body x acc; for_each xs' body acc'
  end.

(** ** Tables *)

Module Frames.

(** Row labels (the pandas index), user ids and item ids. *)
Abbreviation label := Z (only parsing).
Abbreviation user_id := Z (only parsing).
Abbreviation item_id := Z (only parsing).

(** A cell of a column other than [user] and [item]. *)
Inductive cell : Type :=
  | IntCell (z : Z)
  | StrCell (s : string)
  | NaNCell.

(** One row of a pairs table: the [user] and [item] columns and whatever
    other named columns the caller's table carries. *)
Record row : Type := Row {
  user : user_id;
  item : item_id;
  extra : list (string * cell)
}.

(** A pandas Series: values under index labels, in row order.  Labels may
    repeat. *)
Abbreviation Series K V := (list (K * V)) (only parsing).

(** A pandas DataFrame with (at least) [user] and [item] columns: rows under
    index labels, in row order. *)
Abbreviation DataFrame := (Series label row) (only parsing).

(** A frame restricted to the [user] and [item] columns. *)
Abbreviation Pairs := (Series label (user_id * item_id)) (only parsing).

(** [pd.DataFrame({'user': ..., 'item': ...})]: a table built from a plain
    sequence of rows gets the positional labels 0, 1, 2, ... *)
Definition DataFrame_of_rows (rows : list row) : DataFrame :=
  zip (Z.of_nat <$> seq 0 (length rows)) rows.

(** [s.index.values] *)
Definition index {K V} (s : Series K V) : list K := s.*1.

(** [pairs.loc[:, ['user', 'item']]] *)
Definition loc_user_item (pairs : DataFrame) : Pairs :=
  (λ lr : label * row, (lr.1, (user lr.2, item lr.2))) <$> pairs.

(** [df['user']] and [df['item']] *)
Definition col_user (df : Pairs) : Series label user_id :=
  (λ e : label * (user_id * item_id), (e.1, e.2.1)) <$> df.
Definition col_item (df : Pairs) : Series label item_id :=
  (λ e : label * (user_id * item_id), (e.1, e.2.2)) <$> df.

(** [Series.unique()]: the distinct values in order of first appearance. *)
Fixpoint unique (l : list Z) : list Z :=
  match l with
  | [] => []
  | x :: l' => x :: filter (λ y, y ≠ x) (unique l')
  end.

(** The rows of the group of user [u]: they keep their labels and their
    relative order. *)
Definition group_rows (u : user_id) (df : Pairs) : Pairs :=
  filter (λ e : label * (user_id * item_id), e.2.1 = u) df.

(** [df.groupby('user', sort=False)]: one group per distinct user, in order
    of first appearance. *)
Definition groupby_user (df : Pairs) : list (user_id * Pairs) :=
  (λ u, (u, group_rows u df)) <$> unique (col_user df).*2.

(** The values a Series indexed by item holds for item [i], in order. *)
Definition matches {V} (i : item_id) (preds : Series item_id V) : list V :=
  (filter (λ e : item_id * V, e.1 = i) preds).*2.

(** The entries that a left join on the item column gives one row: the row's
    label with each value [preds] has for its item, or with NaN ([None]) when
    the item is not in the index of [preds]. *)
Definition join_row {V} (preds : Series item_id (option V))
    (e : label * (user_id * item_id)) : Series label (option V) :=
  match matches e.2.2 preds with
  | [] => [(e.1, None)]
  | ms => (λ v, (e.1, v)) <$> ms
  end.

(** [df.join(preds, on='item', how='left').prediction] *)
Definition join_prediction {V} (df : Pairs) (preds : Series item_id (option V))
    : Series label (option V) :=
  mjoin (join_row preds <$> df).

(** [res.reset_index(level='user', inplace=True, drop=True)] on a Series
    indexed by (user, label). *)
Definition reset_index_user {V} (s : Series (user_id * label) V) : Series label V :=
  (λ e : (user_id * label) * V, (e.1.2, e.2)) <$> s.

(** The entries of [s] under label [l]. *)
Definition at_label {V} (l : label) (s : Series label V) : Series label V :=
  filter (λ e : label * V, e.1 = l) s.

(** [s.loc[labels]]: for each requested label in turn, every entry of [s]
    under that label; a label that [s] does not have raises [KeyError]. *)
Fixpoint loc_labels {V} (s : Series label V) (labels : list label)
    : result (Series label V) :=
  match labels with
  | [] => Ok []
  | l :: ls =>
      match at_label l s with
      | [] => Raise KeyError
      | hits =>
          match loc_labels s ls with
          | Ok rest => Ok (hits ++ rest)
          | Raise e => Raise e
          end
      end
  end.

(** What it means for [us] to list the distinct values of [l] in order of
    first appearance: no repeats, the same members, and whenever [u] comes
    before [v] in [us], [u] occurs in [l] at a position before which [v] has
    not occurred. *)
Definition first_appearance_order (l us : list Z) : Prop :=
  NoDup us ∧
  (∀ x, x ∈ us ↔ x ∈ l) ∧
  ∀ i j u v, us !! i = Some u → us !! j = Some v → (i < j)%nat →
    ∃ k, l !! k = Some u ∧ v ∉ take k l.

(** The [user] column of a table, and the [item] column of the rows of one
    user (under the rows' labels, in row order). *)
Definition users_column (pairs : DataFrame) : list user_id :=
  user <$> pairs.*2.
Definition requested_items (u : user_id) (pairs : DataFrame) : Series label item_id :=
  (λ lr : label * row, (lr.1, item lr.2)) <$>
    filter (λ lr : label * row, user lr.2 = u) pairs.

End Frames.

(** ** The aggregator *)

Module Predict.
Import Frames.

(** The Predictor capability.  [predict_for_user user items ratings]
    receives the user's [item] column (a Series under the rows' labels) and
    returns a Series of scores indexed by item id, or raises.  It is a
    function of its arguments: scoring does not change the fitted state.
    Scores are opaque to the aggregator; a score of [None] is NaN. *)
Class Predictor (Score : Type) : Type := {
  predict_for_user :
    user_id → Series label item_id → option (Series item_id Score) →
    result (Series item_id (option Score))
}.

(** The abstract method: [raise NotImplementedError()]. *)
Definition abstract_predictor (Score : Type) : Predictor Score :=
  {| predict_for_user _ _ _ := Raise NotImplementedError |}.

(** One recorded invocation of [predict_for_user]. *)
Abbreviation call := (user_id * Series label item_id)%type (only parsing).

(** Computations of the aggregator: they log calls and may raise. *)
Abbreviation M := (SE (list call)).

(** What [groupby(...).apply] hands back when its function returns a Series
    per group: a DataFrame with one row per group, indexed by user, whose
    columns are the labels the results share; or one Series under a
    (user, label) index. *)
Inductive applied (V : Type) : Type :=
  | Stacked (columns : list label) (rows : Series user_id (list V))
  | Concatenated (s : Series (user_id * label) V).
Arguments Stacked {V} columns rows.
Arguments Concatenated {V} s.

(** What [predict] returns: a Series of predictions under row labels, or a
    DataFrame (columns and labelled rows). *)
Inductive predicted (V : Type) : Type :=
  | SeriesOf (s : Series label V)
  | FrameOf (columns : list label) (rows : Series label (list V)).
Arguments SeriesOf {V} s.
Arguments FrameOf {V} columns rows.

(** pandas' test on the per-group results: every index equals the first. *)
Definition all_indexes_same {V} (results : list (Series label V)) : bool :=
  match results with
  | [] => true
  | first :: rest => forallb (λ s, bool_decide (index s = index first)) rest
  end.

(** How pandas combines the per-group Series: results that all have the same
    index (one group, no group, equal label lists) are stacked into a
    DataFrame with one row per group; otherwise they are concatenated under
    a (user, label) index. *)
Definition wrap_applied_output {V} (results : list (user_id * Series label V))
    : applied V :=
  match results with
  | [] => Stacked [] []
  | (_, first) :: _ =>
      if all_indexes_same results.*2
      then Stacked (index first)
             ((λ r : user_id * Series label V, (r.1, r.2.*2)) <$> results)
      else Concatenated
             (mjoin ((λ r : user_id * Series label V,
                        (λ e : label * V, ((r.1, e.1), e.2)) <$> r.2) <$> results))
  end.

(** [res.reset_index(level='user', inplace=True, drop=True)]: a Series
    loses the user level of its index; the rows of a DataFrame, indexed by
    user alone, get the positional labels 0, 1, 2, ... *)
Definition reset_index_level_user {V} (res : applied V) : predicted V :=
  match res with
  | Concatenated s => SeriesOf (reset_index_user s)
  | Stacked columns rows =>
      FrameOf columns (zip (Z.of_nat <$> seq 0 (length rows)) rows.*2)
  end.

(** [res.loc[labels]]: on a Series the entries, on a DataFrame the rows,
    under each requested label; a missing label raises [KeyError]. *)
Definition loc {V} (res : predicted V) (labels : list label)
    : result (predicted V) :=
  match res with
  | SeriesOf s =>
      match loc_labels s labels with
      | Ok s' => Ok (SeriesOf s')
      | Raise e => Raise e
      end
  | FrameOf columns rows =>
      match loc_labels rows labels with
      | Ok rows' => Ok (FrameOf columns rows')
      | Raise e => Raise e
      end
  end.

Section predictor.
Context {Score : Type} `{P : Predictor Score}.

(** [self.predict_for_user(user, items)] *)
Definition invoke (u : user_id) (items : Series label item_id)
    : M (Series item_id (option Score)) :=
  λ tr, (tr ++ [(u, items)], predict_for_user u items None).

(** [user, = df['user'].unique()] *)
Definition unpack_single (us : list user_id) : M user_id :=
  match us with
  | [u] => mret u
  | _ => raise ValueError
  end.

(** The closure [upred] of [predict]. *)
Definition upred (df : Pairs) : M (Series label (option Score)) :=
  u ← unpack_single (unique (col_user df).*2);
  let items := col_item df in
  preds ← invoke u items;
  let res := join_prediction df preds in
  mret res.

(** [upred] on a group from which the [user] column has been taken out:
    [df['user']] raises [KeyError]. *)
Definition upred_user_excluded (df : Pairs) : M (Series label (option Score)) :=
  raise KeyError.

(** The function of [groupby(...).apply] runs once on each group, in group
    order; the first exception ends the run. *)
Fixpoint apply_groups {V} (f : Pairs → M (Series label V))
    (groups : list (user_id * Pairs)) : M (list (user_id * Series label V)) :=
  match groups with
  | [] => mret []
  | (u, df) :: gs =>
      s ← f df;
      rest ← apply_groups f gs;
      mret ((u, s) :: rest)
  end.

(** [groupby(...).apply(f)] for an [f] that returns one Series per group.
    If the run raises [TypeError], pandas catches it and runs [f] again on
    the groups with the grouping column excluded ([f_excluded]); any other
    exception leaves [apply].  The results are then combined by
    [wrap_applied_output]. *)
Definition groupby_apply {V} (f f_excluded : Pairs → M (Series label V))
    (groups : list (user_id * Pairs)) : M (applied V) :=
  λ tr,
    match apply_groups f groups tr with
    | (tr', Ok results) => (tr', Ok (wrap_applied_output results))
    | (tr', Raise e) =>
        if decide (e = TypeError)
        then (results ← apply_groups f_excluded groups;
              mret (wrap_applied_output results)) tr'
        else (tr', Raise e)
    end.

(** [Predictor.predict(self, pairs, ratings=None)] *)
Definition predict (pairs : DataFrame) (ratings : option DataFrame)
    : M (predicted (option Score)) :=
  match ratings with
  | Some _ => raise NotImplementedError
  | None =>
      res ← groupby_apply upred upred_user_excluded
              (groupby_user (loc_user_item pairs));
      let res := reset_index_level_user res in
      lift (loc res (index pairs))
  end.

(** The calls a complete run over [pairs] makes: one per distinct user, in
    order of first appearance, each with all the items requested for that
    user. *)
Definition expected_calls (pairs : DataFrame) : list call :=
  (λ u, (u, requested_items u pairs)) <$> unique (users_column pairs).

(** What [predict_for_user] answers for user [u] of [pairs]; the empty
    Series stands in when the call raises. *)
Definition answer (u : user_id) (pairs : DataFrame)
    : result (Series item_id (option Score)) :=
  predict_for_user u (requested_items u pairs) None.
Definition preds_of (u : user_id) (pairs : DataFrame) : Series item_id (option Score) :=
  match answer u pairs with
  | Ok preds => preds
  | Raise _ => []
  end.

(** The output entries that stem from one row. *)
Definition row_output (pairs : DataFrame) (e : label * (user_id * item_id))
    : Series label (option Score) :=
  join_row (preds_of e.2.1 pairs) e.

(** The per-user results in group order, once the user level of the index
    is dropped. *)
Definition regrouped (pairs : DataFrame) : Series label (option Score) :=
  mjoin ((λ u, mjoin (row_output pairs <$> group_rows u (loc_user_item pairs)))
            <$> unique (users_column pairs)).

(** The per-user results of a run in which every call returns. *)
Definition group_results (pairs : DataFrame)
    : list (user_id * Series label (option Score)) :=
  (λ u, (u, mjoin (row_output pairs <$> group_rows u (loc_user_item pairs))))
    <$> unique (users_column pairs).

(** The table has rows of at least two users. *)
Definition several_users (pairs : DataFrame) : Prop :=
  ∃ u v, u ∈ users_column pairs ∧ v ∈ users_column pairs ∧ u ≠ v.

(** The score a Series holds for an item: the first one, NaN if none. *)
Definition score_of (preds : Series item_id (option Score)) (i : item_id)
    : option Score :=
  match matches i preds with
  | v :: _ => v
  | [] => None
  end.

(** A returned Series is a mapping when no item occurs twice in its index. *)
Definition is_mapping (preds : Series item_id (option Score)) : Prop :=
  NoDup preds.*1.

(** The contract of [predict_for_user]: it returns a mapping from item to
    score that covers exactly the requested items. *)
Definition honours_contract : Prop :=
  ∀ u items, ∃ preds,
    predict_for_user u items None = Ok preds ∧
    is_mapping preds ∧
    ∀ i, i ∈ preds.*1 ↔ i ∈ items.*2.

(** Order preservation for one table: [predict] returns a Series with as
    many entries as the table has rows, and entry [i] carries the label of row [i] and the
    score that [predict_for_user] gave the item of row [i] for the user of
    row [i]. *)
Definition order_preserved (pairs : DataFrame) : Prop :=
  ∃ out,
    (predict pairs None []).2 = Ok (SeriesOf out) ∧
    length out = length pairs ∧
    ∀ i l r, pairs !! i = Some (l, r) →
      ∃ preds s,
        predict_for_user (user r) (requested_items (user r) pairs) None = Ok preds ∧
        (item r, s) ∈ preds ∧
        out !! i = Some (l, s).

End predictor.

End Predict.

(** ** Objects *)

Module Objects.

Abbreviation loc := positive (only parsing).

(** Python values: a few builtins, references to heap objects and bound
    methods. *)
Inductive value : Type :=
  | VNone
  | VBool (b : bool)
  | VInt (z : Z)
  | VStr (s : string)
  | VRef (l : loc)
  | VMethod (self : loc) (name : string).

#[global] Instance value_eq_dec : EqDecision value.
Proof. solve_decision. Defined.

(** A class: the parameter names of its constructor
    ([inspect.signature(cls).parameters.keys()]), the names of the classes
    in its MRO, and the names of the attributes found on the class or its
    bases (methods and class variables). *)
Record class : Type := Class {
  cls_name : string;
  cls_params : list string;
  cls_mro : list string;
  cls_attrs : list string
}.

(** An object: its class and its [__dict__]. *)
Record object : Type := Object {
  obj_class : class;
  obj_dict : gmap string value
}.

Abbreviation heap := (gmap loc object).
Abbreviation Py := (SE heap).

(** [getattr(obj, name)]: the instance dictionary first, then the class. *)
Definition getattr (h : heap) (l : loc) (name : string) : option value :=
  o ← h !! l;
  match obj_dict o !! name with
  | Some v => Some v
  | None => if decide (name ∈ cls_attrs (obj_class o)) then Some (VMethod l name) else None
  end.

(** [hasattr(obj, name)] *)
Definition hasattr (h : heap) (l : loc) (name : string) : bool :=
  bool_decide (is_Some (getattr h l name)).

(** [hasattr(value, 'get_params')]: the builtin values have no such
    attribute. *)
Definition has_get_params (h : heap) (v : value) : bool :=
  match v with
  | VRef l => hasattr h l "get_params"
  | _ => false
  end.

(** [isinstance(value, C)] for a class named [C]. *)
Definition isinstance (h : heap) (v : value) (C : string) : bool :=
  match v with
  | VRef l =>
      match h !! l with
      | Some o => bool_decide (C ∈ cls_mro (obj_class o))
      | None => false
      end
  | _ => false
  end.

(** [inspect.signature(self.__class__).parameters.keys()] *)
Definition signature (h : heap) (self : loc) : list string :=
  match h !! self with
  | Some o => cls_params (obj_class o)
  | None => []
  end.

(** [for k, sv in sps.items(): params[name + '__' + k] = sv] *)
Definition merge_nested (name : string) (sps params : gmap string value)
    : gmap string value :=
  map_fold (λ k sv acc, <[name +:+ "__" +:+ k := sv]> acc) params sps.

(** The body of the loop of [get_params]; [recur] is the method itself, one
    frame deeper, which is what [value.get_params(deep)] resolves to: no
    class of the model overrides [get_params]. *)
Definition get_params_body (recur : loc → Py (gmap string value))
    (deep : bool) (self : loc) (name : string) (params : gmap string value)
    : Py (gmap string value) :=
  attr ← gets (λ h, getattr h self name);
  match attr with
  | Some value =>
      let params := <[name := value]> params in
      nested ← gets (λ h, has_get_params h value);
      if deep && nested then
        match value with
        | VRef l => sps ← recur l; mret (merge_nested name sps params)
        | _ => mret params
        end
      else mret params
  | None => mret params
  end.

(** [Algorithm.get_params(self, deep=True)].  [limit] is the room the
    interpreter's recursion limit leaves for nested frames of [get_params]
    itself: a chain of nested calls longer than that raises
    [RecursionError]. *)
Fixpoint get_params (limit : nat) (deep : bool) (self : loc)
    : Py (gmap string value) :=
  match limit with
  | O => raise RecursionError
  | S limit' =>
      names ← gets (λ h, signature h self);
      for_each names (get_params_body (get_params limit' deep) deep self) ∅
  end.

(** The graph of parameter values that themselves answer [get_params] is at
    most [n] objects deep below [self]. *)
Fixpoint nesting_within (n : nat) (h : heap) (self : loc) : Prop :=
  match n with
  | O => False
  | S n' =>
      ∀ name l, name ∈ signature h self →
        getattr h self name = Some (VRef l) →
        has_get_params h (VRef l) = true →
        nesting_within n' h l
  end.

(** [obj.__dict__] *)
Definition get_dict (v : value) : Py (gmap string value) :=
  λ h,
    match v with
    | VRef l =>
        match h !! l with
        | Some o => (h, Ok (obj_dict o))
        | None => (h, Raise AttributeError)
        end
    | _ => (h, Raise AttributeError)
    end.

(** [d.update(other)]: the entries of [other] win. *)
Definition dict_update (d other : gmap string value) : gmap string value :=
  other ∪ d.

(** [self.__dict__.update(other)]: the instance dictionary is changed in
    place. *)
Definition update_dict (self : loc) (other : gmap string value) : Py unit :=
  modify (alter (λ o, Object (obj_class o) (dict_update (obj_dict o) other)) self).

Section persistence.
(** [path.open('rb')] followed by [pickle.load(f)]: the unpickler is a
    collaborator; it builds the stored object on the heap and returns it, or
    raises. *)
Variable pickle_load : string → Py value.

(** [Algorithm.load(self, file)] *)
Definition load (self : loc) (file : string) : Py unit :=
  obj ← pickle_load file;
  other ← get_dict obj;
  update_dict self other.

End persistence.

Section adapter.
(** Modelled from the spec: [lenskit.algorithms.basic.TopN] is not among the
    sources.  It is the external "top-N ranking from scores" collaborator:
    its constructor accepts an algorithm, and the wrapper it builds itself
    implements the Recommender capability. *)
Variable TopN : value → Py value.

(** [Recommender.adapt(cls, algo)] *)
Definition adapt (algo : value) : Py value :=
  is_rec ← gets (λ h, isinstance h algo "Recommender");
  if (is_rec : bool) then mret algo else TopN algo.

End adapter.

End Objects.

(** ** Concrete tables, predictors and heaps *)

Module Fixtures.
Import Frames Predict Objects.

(** Users [1, 1, 2] and items [10, 20, 10], under the positional labels. *)
Definition scenario_pairs : DataFrame :=
  DataFrame_of_rows [Row 1 10 []; Row 1 20 []; Row 2 10 []].

(** A predictor with the two answers of the scenario: 3.5 and no value for
    user 1, 4.0 for every other user. *)
Definition scenario_predictor : Predictor Q :=
  {| predict_for_user u _ _ :=
       if decide (u = 1) then Ok [(10, Some (Qmake 7 2)); (20, None)]
       else Ok [(10, Some (Qmake 4 1))] |}.

(** A predictor that scores every requested item, once, with
    [100 * user + item]. *)
Definition full_predictor : Predictor Z :=
  {| predict_for_user u items _ :=
       Ok ((λ i, (i, Some (100 * u + i))) <$> unique items.*2) |}.

(** A predictor that knows only the items below 15. *)
Definition partial_predictor : Predictor Z :=
  {| predict_for_user u items _ :=
       Ok ((λ i, (i, Some (100 * u + i))) <$> filter (λ i, i < 15) (unique items.*2)) |}.

(** Interleaved users, a repeated pair, labels that are not positions. *)
Definition interleaved_pairs : DataFrame :=
  [(5, Row 2 10 []); (3, Row 1 10 []); (7, Row 2 20 []); (8, Row 1 10 []);
   (4, Row 2 10 [])].

(** A table in which two rows carry the label 0, as after concatenating two
    tables without renumbering. *)
Definition duplicate_label_pairs : DataFrame :=
  [(0, Row 1 10 []); (0, Row 2 10 []); (1, Row 2 20 [])].

(** One user, two rows, under the positional labels. *)
Definition single_user_pairs : DataFrame :=
  DataFrame_of_rows [Row 1 10 []; Row 1 20 []].

(** The scenario table with a [rating] column. *)
Definition rated_pairs : DataFrame :=
  [(0, Row 1 10 [("rating", IntCell 4)]); (1, Row 1 20 [("rating", NaNCell)]);
   (2, Row 2 10 [("rating", IntCell 5)])].

(** The attributes every [Algorithm] subclass inherits. *)
Definition algorithm_attrs : list string := ["fit"; "get_params"; "save"; "load"].

(** [class Inner(Algorithm): def __init__(self, c): self.c = c] *)
Definition Inner : class :=
  Class "Inner" ["c"] ["Inner"; "Algorithm"; "object"] algorithm_attrs.

(** [class Outer(Algorithm): def __init__(self, a, b): self.a = a; self.b = b] *)
Definition Outer : class :=
  Class "Outer" ["a"; "b"] ["Outer"; "Algorithm"; "object"] algorithm_attrs.

(** [class Clash(Algorithm): def __init__(self, b, b__c=None): self.b = b]:
    the second parameter is consumed by the constructor and not stored. *)
Definition Clash : class :=
  Class "Clash" ["b"; "b__c"] ["Clash"; "Algorithm"; "object"] algorithm_attrs.

(** [class Bare(Algorithm): pass] *)
Definition Bare : class :=
  Class "Bare" [] ["Bare"; "Algorithm"; "object"] algorithm_attrs.

(** [class Ranker(Recommender): ...] *)
Definition Ranker : class :=
  Class "Ranker" [] ["Ranker"; "Recommender"; "Algorithm"; "object"]
    (algorithm_attrs ++ ["recommend"; "adapt"]).

(** [Outer(a=3, b=Inner(c=7))] at 1 and 2, [Clash(b=Inner(c=7))] at 3,
    [Bare()] at 4 and [Ranker()] at 5. *)
Definition outer_instance : object :=
  Object Outer {[ "a" := VInt 3; "b" := VRef 2%positive ]}.
Definition sample_heap : heap :=
  list_to_map
    [(1%positive, outer_instance);
     (2%positive, Object Inner {[ "c" := VInt 7 ]});
     (3%positive, Object Clash {[ "b" := VRef 2%positive ]});
     (4%positive, Object Bare ∅);
     (5%positive, Object Ranker ∅)].

(** Modelled from the spec: [lenskit.algorithms.basic.TopN] is not among the
    sources.  The wrapper is a new object of a class that implements the
    Recommender capability and keeps the wrapped algorithm. *)
Definition TopN_class : class :=
  Class "TopN" ["predictor"] ["TopN"; "Recommender"; "Algorithm"; "object"]
    (algorithm_attrs ++ ["recommend"; "adapt"]).
Definition TopN_new (algo : value) : Py value :=
  λ h, let l := fresh (dom h) in
       (<[l := Object TopN_class {[ "predictor" := algo ]}]> h, Ok (VRef l)).

(** An unpickler for a store with one file, [model.pkl], which holds an
    [Inner] instance with [c = 9] and a fitted field [mean_]. *)
Definition stored_object : object :=
  Object Inner {[ "c" := VInt 9; "mean_" := VInt 4 ]}.
Definition sample_pickle_load (file : string) : Py value :=
  λ h, if decide (file = "model.pkl")
       then let l := fresh (dom h) in (<[l := stored_object]> h, Ok (VRef l))
       else (h, Raise (OtherError "FileNotFoundError")).

End Fixtures.

(** ** Further tables, predictors and heaps *)

Module MoreFixtures.
Import Frames Predict Objects Fixtures.

(** Three users, one row each. *)
Definition three_user_pairs : DataFrame :=
  [(0, Row 3 10 []); (1, Row 1 10 []); (2, Row 2 10 [])].

(** A predictor that raises for user 1 and scores every requested item of
    any other user. *)
Definition failing_predictor : Predictor Z :=
  {| predict_for_user u items _ :=
       if decide (u = 1) then Raise (OtherError "unknown user")
       else Ok ((λ i, (i, Some (100 * u + i))) <$> unique items.*2) |}.

(** A predictor that answers with one entry per requested row, as
    [pd.Series(scores, index=items)] does: an item requested twice occurs
    twice in the index of the answer. *)
Definition echo_predictor : Predictor Z :=
  {| predict_for_user u items _ :=
       Ok ((λ e : label * item_id, (e.2, Some (100 * u + e.2))) <$> items) |}.

(** One user, one row. *)
Definition single_row_pairs : DataFrame :=
  DataFrame_of_rows [Row 1 10 []].

(** A predictor that raises [TypeError] for user 1 and scores every
    requested item of any other user. *)
Definition type_error_predictor : Predictor Z :=
  {| predict_for_user u items _ :=
       if decide (u = 1) then Raise TypeError
       else Ok ((λ i, (i, Some (100 * u + i))) <$> unique items.*2) |}.

(** [class Wrapper(Algorithm): def __init__(self, inner): self.inner = inner]
    and an instance at 1 whose [inner] is the instance itself. *)
Definition Wrapper : class :=
  Class "Wrapper" ["inner"] ["Wrapper"; "Algorithm"; "object"] algorithm_attrs.
Definition cyclic_heap : heap :=
  {[ 1%positive := Object Wrapper {[ "inner" := VRef 1%positive ]} ]}.

End MoreFixtures.

(** ** Facts about tables *)

Module FramesFacts.
Import Frames.

Lemma elem_of_unique (l : list Z) x : x ∈ unique l ↔ x ∈ l.
Proof.
  induction l as [|y l IH]; simpl; [done|].
  rewrite !elem_of_cons, list_elem_of_filter, IH.
  destruct (decide (x = y)); naive_solver.
Qed.

Lemma NoDup_unique (l : list Z) : NoDup (unique l).
Proof.
  induction l as [|y l IH]; simpl; [constructor|].
  constructor; [|by apply NoDup_filter].
  rewrite list_elem_of_filter. naive_solver.
Qed.

(** Filtering keeps the relative order of the elements it keeps. *)
Lemma filter_lookup_order {A} (Q : A → Prop) `{∀ x, Decision (Q x)}
    (l : list A) i j u v :
  filter Q l !! i = Some u → filter Q l !! j = Some v → (i < j)%nat →
  ∃ i' j', (i' < j')%nat ∧ l !! i' = Some u ∧ l !! j' = Some v.
Proof.
  revert i j. induction l as [|a l IH]; intros i j Hi Hj Hlt; [done|].
  rewrite filter_cons in Hi, Hj. destruct (decide (Q a)).
  - destruct i as [|i]; simpl in Hi.
    + destruct j as [|j]; [lia|]. simpl in Hj. simplify_eq.
      apply list_elem_of_lookup_2, list_elem_of_filter in Hj as [_ Hv].
      apply list_elem_of_lookup_1 in Hv as [j' Hj'].
      exists 0%nat, (S j'). split_and!; [lia|done|done].
    + destruct j as [|j]; [lia|]. simpl in Hj.
      destruct (IH i j Hi Hj) as (i' & j' & ? & ? & ?); [lia|].
      exists (S i'), (S j'). split_and!; [lia|done|done].
  - destruct (IH i j Hi Hj Hlt) as (i' & j' & ? & ? & ?).
    exists (S i'), (S j'). split_and!; [lia|done|done].
Qed.

(** [unique] lists the distinct values in order of first appearance. *)
Lemma unique_first_appearance (l : list Z) : first_appearance_order l (unique l).
Proof.
  split_and!; [apply NoDup_unique|apply elem_of_unique|].
  induction l as [|x l IH]; intros i j u v Hi Hj Hlt; [done|].
  simpl in Hi, Hj. destruct i as [|i]; simpl in Hi.
  - simplify_eq. exists 0%nat. split; [done|]. simpl. apply not_elem_of_nil.
  - destruct j as [|j]; [lia|]. simpl in Hj.
    assert (v ≠ x) as Hvx.
    { apply list_elem_of_lookup_2, list_elem_of_filter in Hj. naive_solver. }
    destruct (filter_lookup_order _ _ _ _ _ _ Hi Hj) as (i' & j' & ? & Hi' & Hj'); [lia|].
    destruct (IH i' j' u v Hi' Hj') as (k & Hk & Hnot); [done|].
    exists (S k). split; [done|]. simpl. rewrite elem_of_cons. naive_solver.
Qed.

Lemma unique_all_equal (l : list Z) u :
  l ≠ [] → Forall (λ x, x = u) l → unique l = [u].
Proof.
  induction l as [|x l IH]; [done|]. intros _ Hall.
  apply Forall_cons in Hall as [-> Hall]. simpl.
  destruct l as [|y l]; [done|].
  rewrite IH by done. rewrite filter_cons_False; [done|]. naive_solver.
Qed.

Lemma join_fmap_nil {A B} (f : A → list B) (l : list A) :
  (∀ x, x ∈ l → f x = []) → mjoin (f <$> l) = [].
Proof.
  induction l as [|b l IHl]; intros Hl; [done|]. csimpl.
  rewrite Hl by set_solver. rewrite IHl; [done|]. intros; apply Hl; set_solver.
Qed.

Lemma join_fmap_singleton {A B} (f : A → B) (l : list A) :
  mjoin ((λ x, [f x]) <$> l) = f <$> l.
Proof. induction l as [|a l IH]; [done|]. csimpl. by rewrite IH. Qed.

(** A list concatenation in which one member of a duplicate-free list
    contributes and the others are empty. *)
Lemma join_fmap_single {A B} (f : A → list B) (us : list A) u :
  NoDup us → u ∈ us → (∀ x, x ∈ us → x ≠ u → f x = []) →
  mjoin (f <$> us) = f u.
Proof.
  induction us as [|a us IH]; intros Hnd Hin Hf; [by apply elem_of_nil in Hin|].
  apply NoDup_cons in Hnd as [Ha Hnd].
  csimpl. apply elem_of_cons in Hin as [->|Hin].
  - rewrite join_fmap_nil, app_nil_r; [done|]. intros x Hx. apply Hf; set_solver.
  - rewrite (Hf a) by set_solver. simpl. apply IH; [done..|].
    intros x Hx. apply Hf. set_solver.
Qed.

(** Distinct labels identify the entries of a Series. *)
Lemma NoDup_index_inj {K V} (s : list (K * V)) e e' :
  NoDup (index s) → e ∈ s → e' ∈ s → e.1 = e'.1 → e = e'.
Proof.
  unfold index. induction s as [|x s IH]; intros Hnd He He' Heq.
  { by apply elem_of_nil in He. }
  csimpl in Hnd. apply NoDup_cons in Hnd as [Hx Hnd].
  apply elem_of_cons in He as [->|He]; apply elem_of_cons in He' as [->|He'].
  - done.
  - destruct Hx. rewrite Heq. by apply list_elem_of_fmap_2.
  - destruct Hx. rewrite <- Heq. by apply list_elem_of_fmap_2.
  - by apply IH.
Qed.

Lemma at_label_app {V} l (s1 s2 : Series label V) :
  at_label l (s1 ++ s2) = at_label l s1 ++ at_label l s2.
Proof. apply filter_app. Qed.

Lemma at_label_join {V} l (ss : list (Series label V)) :
  at_label l (mjoin ss) = mjoin (at_label l <$> ss).
Proof.
  induction ss as [|s ss IH]; [done|]. csimpl.
  by rewrite at_label_app, IH.
Qed.

(** A joined row carries the label of the row, and is never empty. *)
Lemma join_row_labels {V} (preds : Series item_id (option V)) e x :
  x ∈ join_row preds e → x.1 = e.1.
Proof.
  unfold join_row. destruct (matches e.2.2 preds) as [|m ms].
  - intros ->%list_elem_of_singleton. done.
  - intros (v & -> & _)%list_elem_of_fmap. done.
Qed.

Lemma join_row_nonempty {V} (preds : Series item_id (option V)) e :
  join_row preds e ≠ [].
Proof. unfold join_row. by destruct (matches e.2.2 preds). Qed.

Lemma at_label_join_row {V} (preds : Series item_id (option V)) e l :
  at_label l (join_row preds e) = if decide (e.1 = l) then join_row preds e else [].
Proof.
  pose proof (join_row_labels preds e) as Hlab. unfold at_label.
  induction (join_row preds e) as [|x s IH].
  - by case_decide.
  - rewrite filter_cons. rewrite IH by (intros; apply Hlab; set_solver).
    rewrite (Hlab x) by set_solver. by repeat case_decide.
Qed.

End FramesFacts.

(** ** Facts about the aggregator *)

Module PredictFacts.
Import Frames Predict FramesFacts Fixtures.

Lemma elem_of_matches {V} (i : item_id) (preds : Series item_id V) v :
  v ∈ matches i preds ↔ (i, v) ∈ preds.
Proof.
  unfold matches. rewrite list_elem_of_fmap. split.
  - intros ([i' v'] & -> & [Hi Hin]%list_elem_of_filter). simpl in *. by subst.
  - intros Hin. exists (i, v). split; [done|]. by apply list_elem_of_filter.
Qed.

Lemma matches_nil {V} (i : item_id) (preds : Series item_id V) :
  matches i preds = [] ↔ i ∉ preds.*1.
Proof.
  split.
  - intros Hnil ([i' v] & -> & Hin)%list_elem_of_fmap.
    apply (elem_of_matches i' preds v) in Hin. simpl in Hnil.
    rewrite Hnil in Hin. by apply elem_of_nil in Hin.
  - intros Hnot. destruct (matches i preds) as [|v ms] eqn:Hm; [done|].
    destruct Hnot. apply list_elem_of_fmap. exists (i, v). split; [done|].
    apply elem_of_matches. rewrite Hm. left.
Qed.

(** In a mapping an item has at most one value. *)
Lemma matches_mapping {V} (i : item_id) (preds : Series item_id V) :
  NoDup preds.*1 → (length (matches i preds) ≤ 1)%nat.
Proof.
  unfold matches. induction preds as [|[k v] preds IH]; intros Hnd; [simpl; lia|].
  apply NoDup_cons in Hnd as [Hk Hnd]. rewrite filter_cons. simpl.
  case_decide as Hki; [|by apply IH]. simpl in Hki. subst k.
  apply matches_nil in Hk. unfold matches in Hk. simpl in Hk. csimpl.
  rewrite Hk. simpl. lia.
Qed.

Lemma join_row_mapping {V} (preds : Series item_id (option V))
    (e : label * (user_id * item_id)) :
  NoDup preds.*1 →
  join_row preds e =
    [(e.1, match matches e.2.2 preds with v :: _ => v | [] => None end)].
Proof.
  intros Hlen%(matches_mapping e.2.2). unfold join_row.
  destruct (matches e.2.2 preds) as [|v [|w ms]]; simpl in *; [done|done|lia].
Qed.

(** Projecting to the two columns commutes with selecting a user's rows. *)
Lemma users_column_loc (pairs : DataFrame) :
  (col_user (loc_user_item pairs)).*2 = users_column pairs.
Proof.
  unfold col_user, loc_user_item, users_column.
  rewrite <- !list_fmap_compose. by apply list_fmap_ext.
Qed.

Lemma col_user_group u (df : Pairs) :
  Forall (λ x, x = u) (col_user (group_rows u df)).*2.
Proof.
  unfold col_user, group_rows. rewrite <- list_fmap_compose.
  apply Forall_fmap, Forall_forall. by intros e [? _]%list_elem_of_filter.
Qed.

Lemma col_item_group u (pairs : DataFrame) :
  col_item (group_rows u (loc_user_item pairs)) = requested_items u pairs.
Proof.
  unfold col_item, group_rows, loc_user_item, requested_items.
  induction pairs as [|[l r] pairs IH]; [done|].
  rewrite fmap_cons, !filter_cons. simpl. case_decide; csimpl; by rewrite IH.
Qed.

Lemma group_rows_nonempty u (pairs : DataFrame) :
  u ∈ users_column pairs → group_rows u (loc_user_item pairs) ≠ [].
Proof.
  unfold users_column. rewrite <- list_fmap_compose.
  intros ([l r] & -> & Hin)%list_elem_of_fmap Hnil.
  eapply (filter_nil_not_elem_of _ _ (l, (user r, item r))) in Hnil; [|done].
  destruct Hnil. apply list_elem_of_fmap. by exists (l, r).
Qed.

(** [loc] with a list of labels that are all present. *)
Lemma loc_labels_present {V} (s : Series label V) (ls : list label) :
  (∀ l, l ∈ ls → at_label l s ≠ []) →
  loc_labels s ls = Ok (mjoin ((λ l, at_label l s) <$> ls)).
Proof.
  induction ls as [|l ls IH]; intros Hall; [done|].
  simpl. rewrite IH by (intros; apply Hall; set_solver).
  destruct (at_label l s) eqn:Hl; [|done].
  by destruct (Hall l); [set_solver|].
Qed.

Lemma at_label_nonempty {V} (s : Series label V) l x :
  x ∈ s → x.1 = l → at_label l s ≠ [].
Proof.
  intros Hin Hl Hnil.
  assert (x ∈ at_label l s) as Hx by by apply list_elem_of_filter.
  rewrite Hnil in Hx. by apply elem_of_nil in Hx.
Qed.

Section aggregator.
Context {Score : Type} `{P : Predictor Score}.

(** One run of [upred] on the group of a user of the table: one call, with
    the user and the user's item column; the answer is joined to the rows of
    the group, and an exception passes through. *)
Lemma upred_group (pairs : DataFrame) u tr :
  u ∈ users_column pairs →
  upred (group_rows u (loc_user_item pairs)) tr =
    (tr ++ [(u, requested_items u pairs)],
     match answer u pairs with
     | Ok preds => Ok (join_prediction (group_rows u (loc_user_item pairs)) preds)
     | Raise e => Raise e
     end).
Proof.
  intros Hu. unfold upred.
  rewrite (unique_all_equal _ u).
  - unfold mbind, SE_bind, unpack_single, mret, SE_ret, invoke; simpl.
    rewrite col_item_group. unfold answer. by destruct (predict_for_user _ _ _).
  - intros Hnil. apply (group_rows_nonempty u pairs Hu).
    unfold col_user in Hnil. by repeat apply fmap_nil_inv in Hnil.
  - apply col_user_group.
Qed.

(** The run of the function of [apply] over the groups of a list of users
    of the table: the log grows by a prefix of the calls for these users; on
    success every call was made and returned, and the results are the joined
    groups; an exception is the one raised by the last call made. *)
Lemma apply_groups_run (pairs : DataFrame) (us : list user_id) tr :
  (∀ u, u ∈ us → u ∈ users_column pairs) →
  ∃ calls,
    (apply_groups upred ((λ u, (u, group_rows u (loc_user_item pairs))) <$> us) tr).1
      = tr ++ calls ∧
    calls `prefix_of` ((λ u, (u, requested_items u pairs)) <$> us) ∧
    match (apply_groups upred
             ((λ u, (u, group_rows u (loc_user_item pairs))) <$> us) tr).2 with
    | Ok res =>
        calls = (λ u, (u, requested_items u pairs)) <$> us ∧
        (∀ u, u ∈ us → ∃ preds, answer u pairs = Ok preds) ∧
        res = (λ u, (u, mjoin (row_output pairs <$> group_rows u (loc_user_item pairs))))
                <$> us
    | Raise e =>
        ∃ calls' u items,
          calls = calls' ++ [(u, items)] ∧ predict_for_user u items None = Raise e
    end.
Proof.
  revert tr. induction us as [|u us IH]; intros tr Hus.
  - exists []. simpl. rewrite app_nil_r. split_and!; try done. by intros ? ?%elem_of_nil.
  - csimpl. unfold mbind at 1 3, SE_bind at 1 3.
    rewrite upred_group by (apply Hus; set_solver).
    destruct (answer u pairs) as [preds|e] eqn:Hans.
    + unfold mbind at 1 2, SE_bind at 1 2.
      destruct (IH (tr ++ [(u, requested_items u pairs)])) as (calls & Htr & Hpre & Hres).
      { intros; apply Hus; set_solver. }
      destruct (apply_groups upred _ _) as [tr' [res|e]] eqn:Hrun; simpl in *.
      * destruct Hres as (-> & Hret & ->). subst tr'.
        eexists (_ :: _).
        split_and!; [by rewrite <- app_assoc|done|done| |].
        -- intros u' [->|?]%elem_of_cons; eauto.
        -- f_equal. f_equal. unfold join_prediction. f_equal.
           apply list_fmap_ext. intros k e' Hk. unfold row_output.
           apply list_elem_of_lookup_2, list_elem_of_filter in Hk as [-> _].
           unfold preds_of. by rewrite Hans.
      * destruct Hres as (calls' & u' & items & -> & Hraise). subst tr'.
        eexists (_ :: _).
        split_and!; [by rewrite <- app_assoc|by apply prefix_cons|].
        by exists ((u, requested_items u pairs) :: calls'), u', items.
    + simpl. exists [(u, requested_items u pairs)].
      split_and!; [done|apply prefix_cons, prefix_nil|].
      by exists [], u, (requested_items u pairs).
Qed.

(** The second run, on groups without their user column, stops at the first
    group. *)
Lemma apply_groups_user_excluded (groups : list (Z * list (Z * (Z * Z)))) tr :
  groups ≠ [] →
  apply_groups (upred_user_excluded (Score := Score)) groups tr =
    (tr, Raise KeyError).
Proof. by destruct groups as [|[u df] gs]. Qed.

(** The run of [predict] without a ratings override: the calls, and where
    an exception can come from. *)
Lemma predict_run (pairs : DataFrame) tr :
  ∃ calls,
    (predict pairs None tr).1 = tr ++ calls ∧
    calls `prefix_of` expected_calls pairs ∧
    (∀ out, (predict pairs None tr).2 = Ok out → calls = expected_calls pairs) ∧
    ((∀ u, u ∈ users_column pairs → ∃ preds, answer u pairs = Ok preds) →
       calls = expected_calls pairs) ∧
    (∀ e, (predict pairs None tr).2 = Raise e →
       e = KeyError ∨
       ∃ calls' u items,
         calls = calls' ++ [(u, items)] ∧ predict_for_user u items None = Raise e).
Proof.
  unfold predict, groupby_user. rewrite users_column_loc.
  destruct (apply_groups_run pairs (unique (users_column pairs)) tr)
    as (calls & Htr & Hpre & Hres).
  { intros u. by rewrite elem_of_unique. }
  assert (∀ V (s : list (Z * V)) ls e', loc_labels s ls = Raise e' → e' = KeyError)
    as Hloc.
  { clear. intros V s ls e'. induction ls as [|l ls IH]; [done|]. simpl.
    destruct (at_label l s); [by intros [= <-]|].
    destruct (loc_labels s ls); [done|]. intros [= <-]. by apply IH. }
  exists calls. unfold mbind, SE_bind, groupby_apply.
  destruct (apply_groups upred _ tr) as [tr' [res|e]] eqn:Hrun; simpl in *.
  - destruct Hres as (-> & Hret & ->).
    split; [done|]. split; [done|]. split; [done|]. split; [done|].
    unfold lift. simpl. intros e He. left.
    destruct (reset_index_level_user _) as [s|cols rows]; simpl in He.
    + destruct (loc_labels s (index pairs)) eqn:Hl; [done|].
      injection He as <-. by eapply Hloc.
    + destruct (loc_labels rows (index pairs)) eqn:Hl; [done|].
      injection He as <-. by eapply Hloc.
  - destruct Hres as (calls' & u & items & -> & Hraise).
    assert (¬ (∀ u', u' ∈ users_column pairs → ∃ preds, answer u' pairs = Ok preds))
      as Hnot.
    { intros Hret.
      assert ((u, items) ∈ expected_calls pairs) as Hin.
      { eapply elem_of_prefix; [|done]. set_solver. }
      apply list_elem_of_fmap in Hin as (u' & [= -> ->] & Hu).
      rewrite elem_of_unique in Hu.
      destruct (Hret u' Hu) as [preds Hans]. unfold answer in Hans. congruence. }
    assert (unique (users_column pairs) ≠ []) as Hne.
    { intros Hnil. rewrite Hnil in Hpre. apply prefix_nil_inv in Hpre.
      by destruct calls'. }
    assert (apply_groups (upred_user_excluded (Score := Score))
              ((λ u0, (u0, group_rows u0 (loc_user_item pairs))) <$>
                 unique (users_column pairs)) tr' = (tr', Raise KeyError)) as Hexcl.
    { apply apply_groups_user_excluded. by intros ?%fmap_nil_inv. }
    case_decide as He.
    + subst e. unfold mbind, SE_bind. rewrite Hexcl. simpl.
      split; [done|]. split; [done|]. split; [done|].
      split; [by intros ?%Hnot|]. intros e' [= <-]. by left.
    + simpl. split; [done|]. split; [done|]. split; [done|].
      split; [by intros ?%Hnot|]. intros e' [= <-]. right.
      by exists calls', u, items.
Qed.

Lemma reset_index_tagged {V} (results : list (Z * list (Z * V))) :
  reset_index_user
    (mjoin ((λ r : Z * list (Z * V), (λ e : Z * V, ((r.1, e.1), e.2)) <$> r.2)
              <$> results)) = mjoin results.*2.
Proof.
  unfold reset_index_user. induction results as [|[u s] rs IH]; [done|].
  csimpl. rewrite fmap_app, IH. f_equal. rewrite <- list_fmap_compose.
  rewrite (list_fmap_ext _ id s) by (by intros ? [] ?). apply list_fmap_id.
Qed.

Lemma reset_index_concatenated {V} (results : list (Z * list (Z * V))) :
  all_indexes_same results.*2 = false →
  reset_index_level_user (wrap_applied_output results) = SeriesOf (mjoin results.*2).
Proof.
  intros Hsame. destruct results as [|[u first] rs]; [done|].
  unfold wrap_applied_output. rewrite Hsame.
  cbn [reset_index_level_user]. by rewrite reset_index_tagged.
Qed.

Lemma group_results_join (pairs : DataFrame) :
  mjoin (group_results pairs).*2 = regrouped pairs.
Proof.
  unfold group_results, regrouped. by rewrite <- list_fmap_compose.
Qed.

(** When every call returns, [predict] makes all the calls and returns what
    the combination, the index reset and the selection by label give. *)
Lemma predict_returns (pairs : DataFrame) tr :
  (∀ u, u ∈ users_column pairs → ∃ preds, answer u pairs = Ok preds) →
  predict pairs None tr =
    (tr ++ expected_calls pairs,
     loc (reset_index_level_user (wrap_applied_output (group_results pairs)))
       (index pairs)).
Proof.
  intros Hret. unfold predict, groupby_user. rewrite users_column_loc.
  destruct (apply_groups_run pairs (unique (users_column pairs)) tr)
    as (calls & Htr & Hpre & Hres).
  { intros u. by rewrite elem_of_unique. }
  unfold mbind, SE_bind, groupby_apply.
  destruct (apply_groups upred _ tr) as [tr' [res|e]] eqn:Hrun; simpl in *.
  - destruct Hres as (-> & _ & ->). by subst.
  - destruct Hres as (calls' & u & items & -> & Hraise).
    assert ((u, items) ∈ expected_calls pairs) as Hin.
    { eapply elem_of_prefix; [|done]. set_solver. }
    apply list_elem_of_fmap in Hin as (u' & [= -> ->] & Hu).
    rewrite elem_of_unique in Hu.
    destruct (Hret u' Hu) as [preds Hans]. unfold answer in Hans. congruence.
Qed.

(** Every entry a row gives rise to is in the regrouped result, under the
    label of the row. *)
Lemma elem_of_regrouped (pairs : DataFrame) x :
  x ∈ regrouped pairs ↔
  ∃ e, e ∈ loc_user_item pairs ∧ x ∈ row_output pairs e.
Proof.
  unfold regrouped. rewrite list_elem_of_join. split.
  - intros (s & Hx & (u & -> & Hu)%list_elem_of_fmap).
    apply list_elem_of_join in Hx as (s' & Hx & (e & -> & He)%list_elem_of_fmap).
    apply list_elem_of_filter in He as [_ He]. eauto.
  - intros (e & He & Hx).
    exists (mjoin (row_output pairs <$> group_rows e.2.1 (loc_user_item pairs))).
    split.
    + apply list_elem_of_join. exists (row_output pairs e). split; [done|].
      apply list_elem_of_fmap. exists e. split; [done|].
      by apply list_elem_of_filter.
    + apply list_elem_of_fmap. exists e.2.1. split; [done|].
      apply elem_of_unique. unfold users_column, loc_user_item in *.
      apply list_elem_of_fmap in He as ([l r] & -> & Hin). simpl.
      apply list_elem_of_fmap. exists r. split; [done|].
      apply list_elem_of_fmap. by exists (l, r).
Qed.

Lemma regrouped_has_label (pairs : DataFrame) l :
  l ∈ index pairs → at_label l (regrouped pairs) ≠ [].
Proof.
  intros ([l' r] & -> & Hin)%list_elem_of_fmap.
  pose (e := (l', (user r, item r))).
  destruct (row_output pairs e) as [|x s] eqn:Hrow.
  { by destruct (join_row_nonempty (preds_of e.2.1 pairs) e). }
  apply (at_label_nonempty _ _ x).
  - apply elem_of_regrouped. exists e. split.
    + apply list_elem_of_fmap. by exists (l', r).
    + rewrite Hrow. left.
  - apply (join_row_labels (preds_of e.2.1 pairs) e).
    unfold row_output in Hrow. rewrite Hrow. left.
Qed.

(** The labels of the result of a group are labels of rows of the group,
    and there is one if the group has a row. *)
Lemma group_result_labels (pairs : DataFrame) u x :
  x ∈ mjoin (row_output pairs <$> group_rows u (loc_user_item pairs)) →
  ∃ e, e ∈ loc_user_item pairs ∧ e.2.1 = u ∧ e.1 = x.1.
Proof.
  intros (s & Hx & (e & -> & He)%list_elem_of_fmap)%list_elem_of_join.
  apply list_elem_of_filter in He as [Hu He]. exists e. split_and!; [done|done|].
  symmetry. by eapply join_row_labels.
Qed.

Lemma group_result_nonempty (pairs : DataFrame) u :
  u ∈ users_column pairs →
  mjoin (row_output pairs <$> group_rows u (loc_user_item pairs)) ≠ [].
Proof.
  intros Hu. pose proof (group_rows_nonempty u pairs Hu) as Hne.
  destruct (group_rows u (loc_user_item pairs)) as [|e g]; [done|]. csimpl.
  pose proof (join_row_nonempty (preds_of e.2.1 pairs) e) as Hrow.
  unfold row_output. by destruct (join_row _ e).
Qed.

(** With distinct row labels and rows of at least two users, the per-user
    results do not share one index: pandas concatenates. *)
Lemma several_users_not_stacked (pairs : DataFrame) :
  NoDup (index pairs) → several_users pairs →
  all_indexes_same (group_results pairs).*2 = false.
Proof.
  intros Hnd (u & v & Hu & Hv & Huv).
  assert (NoDup (index (loc_user_item pairs))) as Hnd'.
  { unfold index, loc_user_item. rewrite <- list_fmap_compose.
    by rewrite (list_fmap_ext _ fst pairs) by done. }
  unfold group_results. rewrite <- list_fmap_compose.
  apply elem_of_unique in Hu, Hv.
  destruct (unique (users_column pairs)) as [|w us] eqn:Hus.
  { by apply elem_of_nil in Hu. }
  assert (∃ w', w' ∈ us ∧ w' ≠ w) as (w' & Hw' & Hne).
  { destruct (decide (u = w)) as [->|?].
    - exists v. split; [set_solver|done].
    - exists u. split; [set_solver|done]. }
  csimpl. apply not_true_is_false. intros Hall.
  rewrite forallb_forall in Hall.
  specialize (Hall (mjoin (row_output pairs <$> group_rows w' (loc_user_item pairs)))).
  rewrite bool_decide_eq_true in Hall.
  assert (w ∈ users_column pairs ∧ w' ∈ users_column pairs) as [Hwin Hw'in].
  { split; apply elem_of_unique; rewrite Hus; set_solver. }
  pose proof (group_result_nonempty pairs w' Hw'in) as Hnonempty.
  destruct (mjoin (row_output pairs <$> group_rows w' (loc_user_item pairs)))
    as [|x s] eqn:Hres; [done|].
  assert (x.1 ∈ index (mjoin (row_output pairs <$> group_rows w (loc_user_item pairs))))
    as Hxw.
  { rewrite <- Hall.
    - unfold index. csimpl. left.
    - apply list_elem_of_In, list_elem_of_fmap. exists w'. split; [|done].
      simpl. by rewrite Hres. }
  apply list_elem_of_fmap in Hxw as (y & Hy1 & Hy).
  apply group_result_labels in Hy as (e & He & Heu & Hel).
  assert (x ∈ mjoin (row_output pairs <$> group_rows w' (loc_user_item pairs))) as Hx
    by (rewrite Hres; left).
  apply group_result_labels in Hx as (e' & He' & He'u & He'l).
  assert (e = e') as <-.
  { apply (NoDup_index_inj (loc_user_item pairs)); [done..|]. congruence. }
  congruence.
Qed.

(** When pandas concatenates, the output is a Series: for each row label in
    turn, the regrouped entries under that label. *)
Lemma predict_concatenated (pairs : DataFrame) tr :
  (∀ u, u ∈ users_column pairs → ∃ preds, answer u pairs = Ok preds) →
  all_indexes_same (group_results pairs).*2 = false →
  predict pairs None tr =
    (tr ++ expected_calls pairs,
     Ok (SeriesOf (mjoin ((λ l, at_label l (regrouped pairs)) <$> index pairs)))).
Proof.
  intros Hret Hsame. rewrite predict_returns by done. f_equal.
  rewrite reset_index_concatenated, group_results_join by done.
  unfold loc. by rewrite loc_labels_present by apply regrouped_has_label.
Qed.

(** With distinct row labels, the entries under the label of a row are the
    entries that row gave rise to. *)
Lemma at_label_regrouped (pairs : DataFrame) l r :
  NoDup (index pairs) → (l, r) ∈ pairs →
  at_label l (regrouped pairs) = row_output pairs (l, (user r, item r)).
Proof.
  intros Hnd Hin. set (e0 := (l, (user r, item r))).
  assert (NoDup (index (loc_user_item pairs))) as Hnd'.
  { unfold index, loc_user_item. rewrite <- list_fmap_compose.
    by rewrite (list_fmap_ext _ fst pairs) by done. }
  assert (e0 ∈ loc_user_item pairs) as He0.
  { apply list_elem_of_fmap. by exists (l, r). }
  assert (∀ e, e ∈ loc_user_item pairs → e ≠ e0 →
            at_label l (row_output pairs e) = []) as Hother.
  { intros e He Hne. unfold row_output. rewrite at_label_join_row.
    case_decide as Hl; [|done]. destruct Hne.
    by apply (NoDup_index_inj (loc_user_item pairs)). }
  unfold regrouped. rewrite at_label_join, <- list_fmap_compose.
  rewrite (join_fmap_single _ _ (user r)).
  - simpl. rewrite at_label_join, <- list_fmap_compose.
    rewrite (join_fmap_single _ _ e0).
    + simpl. unfold row_output. rewrite at_label_join_row. by case_decide.
    + apply NoDup_filter. by eapply NoDup_fmap_1.
    + by apply list_elem_of_filter.
    + intros e [_ He]%list_elem_of_filter Hne. by apply Hother.
  - apply NoDup_unique.
  - apply elem_of_unique, list_elem_of_fmap. exists r. split; [done|].
    apply list_elem_of_fmap. by exists (l, r).
  - intros u _ Hu. simpl. rewrite at_label_join, <- list_fmap_compose.
    apply join_fmap_nil. intros e [Hue He]%list_elem_of_filter. simpl.
    apply Hother; [done|]. intros ->. by destruct Hu.
Qed.

(** With distinct row labels, rows of at least two users and every call
    returning, the output lists the entries of the rows in row order. *)
Lemma predict_by_rows (pairs : DataFrame) tr :
  NoDup (index pairs) → several_users pairs →
  (∀ u, u ∈ users_column pairs → ∃ preds, answer u pairs = Ok preds) →
  predict pairs None tr =
    (tr ++ expected_calls pairs,
     Ok (SeriesOf (mjoin (row_output pairs <$> loc_user_item pairs)))).
Proof.
  intros Hnd Hsev Hret.
  rewrite predict_concatenated by (done || by apply several_users_not_stacked).
  do 4 f_equal.
  unfold index, loc_user_item. rewrite <- !list_fmap_compose.
  apply list_fmap_ext. intros i [l r] Hi. simpl.
  apply at_label_regrouped; [done|]. by eapply list_elem_of_lookup_2.
Qed.

(** If moreover every answer is a mapping, each row has one entry. *)
Lemma predict_by_rows_mapping (pairs : DataFrame) tr :
  NoDup (index pairs) → several_users pairs →
  (∀ u, u ∈ users_column pairs →
     ∃ preds, answer u pairs = Ok preds ∧ is_mapping preds) →
  predict pairs None tr =
    (tr ++ expected_calls pairs,
     Ok (SeriesOf ((λ lr : label * row,
            (lr.1, score_of (preds_of (user lr.2) pairs) (item lr.2))) <$> pairs))).
Proof.
  intros Hnd Hsev Hret. rewrite predict_by_rows; [|done|done|naive_solver].
  do 4 f_equal.
  rewrite <- (join_fmap_singleton
    (λ lr : label * row, (lr.1, score_of (preds_of (user lr.2) pairs) (item lr.2)))).
  unfold loc_user_item. rewrite <- list_fmap_compose. f_equal.
  apply list_fmap_ext. intros i [l r] Hi. simpl.
  unfold row_output. simpl. apply join_row_mapping.
  destruct (Hret (user r)) as (preds & Hans & Hmap).
  { apply list_elem_of_fmap. exists r. split; [done|].
    apply list_elem_of_fmap. exists (l, r). split; [done|].
    by eapply list_elem_of_lookup_2. }
  unfold preds_of. by rewrite Hans.
Qed.

(** With distinct row labels, rows of at least two users and a predictor
    that honours its contract, the output is aligned with the rows. *)
Lemma order_preserved_distinct_labels (pairs : DataFrame) :
  NoDup (index pairs) → several_users pairs → honours_contract →
  order_preserved pairs.
Proof.
  intros Hnd Hsev Hcontract.
  assert (∀ u, ∃ preds, answer u pairs = Ok preds ∧ is_mapping preds ∧
            ∀ i, i ∈ preds.*1 ↔ i ∈ (requested_items u pairs).*2) as Hans.
  { intros u. apply Hcontract. }
  eexists. split; [|split].
  - rewrite predict_by_rows_mapping; [done|done|done|].
    intros u _. destruct (Hans u) as (preds & ? & ? & _). eauto.
  - by rewrite length_fmap.
  - intros i l r Hi. destruct (Hans (user r)) as (preds & Hp & Hmap & Hcover).
    exists preds, (score_of preds (item r)). split; [done|]. split.
    + assert (item r ∈ preds.*1) as Hin.
      { apply Hcover. unfold requested_items. rewrite <- list_fmap_compose.
        apply list_elem_of_fmap. exists (l, r). split; [done|].
        apply list_elem_of_filter. split; [done|]. by eapply list_elem_of_lookup_2. }
      unfold score_of. destruct (matches (item r) preds) as [|v ms] eqn:Hm.
      * by apply matches_nil in Hm.
      * apply elem_of_matches. rewrite Hm. left.
    + rewrite list_lookup_fmap, Hi. simpl. unfold preds_of. by rewrite Hp.
Qed.

(** C2.  The calls a run of [predict] makes are a prefix of
    [expected_calls]: the distinct users of the [user] column, each once, in
    order of first appearance, each with the [item] column of all the rows of
    that user.  When every call returns -- and whenever [predict] returns --
    all of these calls are made. *)
Theorem predict_calls_once_per_user (pairs : DataFrame) tr :
  first_appearance_order (users_column pairs) (expected_calls pairs).*1 ∧
  (∀ u items, (u, items) ∈ expected_calls pairs → items = requested_items u pairs) ∧
  ∃ calls,
    (predict pairs None tr).1 = tr ++ calls ∧
    calls `prefix_of` expected_calls pairs ∧
    (∀ out, (predict pairs None tr).2 = Ok out → calls = expected_calls pairs) ∧
    ((∀ u, u ∈ users_column pairs → ∃ preds, answer u pairs = Ok preds) →
       calls = expected_calls pairs).
Proof.
  split_and!.
  - unfold expected_calls. rewrite <- list_fmap_compose.
    rewrite (list_fmap_ext _ id (unique (users_column pairs))) by done.
    rewrite list_fmap_id. apply unique_first_appearance.
  - intros u items (u' & [= -> ->] & _)%list_elem_of_fmap. done.
  - destruct (predict_run pairs tr) as (calls & Htr & Hpre & Hok & Hret & _).
    by exists calls.
Qed.

(** C3.  With a ratings override, [predict] raises [NotImplementedError]
    and no call to [predict_for_user] has been made.  Without one, an
    exception that leaves [predict] is a [KeyError] or the exception raised
    by the last call to [predict_for_user]; in particular
    [NotImplementedError] leaves it only if [predict_for_user] raised it. *)
Theorem predict_ratings_override (pairs : DataFrame) tr :
  (∀ ratings, predict pairs (Some ratings) tr = (tr, Raise NotImplementedError)) ∧
  (∀ e, (predict pairs None tr).2 = Raise e →
     e = KeyError ∨
     ∃ calls u items,
       (predict pairs None tr).1 = tr ++ calls ++ [(u, items)] ∧
       predict_for_user u items None = Raise e) ∧
  ((predict pairs None tr).2 = Raise NotImplementedError →
     ∃ calls u items,
       (predict pairs None tr).1 = tr ++ calls ++ [(u, items)] ∧
       predict_for_user u items None = Raise NotImplementedError).
Proof.
  assert (∀ e, (predict pairs None tr).2 = Raise e →
     e = KeyError ∨
     ∃ calls u items,
       (predict pairs None tr).1 = tr ++ calls ++ [(u, items)] ∧
       predict_for_user u items None = Raise e) as Hraise.
  { intros e He.
    destruct (predict_run pairs tr) as (calls & Htr & _ & _ & _ & Hres).
    destruct (Hres e He) as [->|(calls' & u & items & -> & Hr)]; [by left|].
    right. by exists calls', u, items. }
  split; [done|]. split; [done|]. intros He.
  by destruct (Hraise _ He) as [?|?].
Qed.

(** Two tables with the same labels and the same [user] and [item] columns
    have the same projection. *)
Lemma loc_user_item_columns (p1 p2 : DataFrame) :
  index p1 = index p2 →
  user <$> p1.*2 = user <$> p2.*2 →
  item <$> p1.*2 = item <$> p2.*2 →
  loc_user_item p1 = loc_user_item p2.
Proof.
  unfold index, loc_user_item. revert p2.
  induction p1 as [|[l1 r1] p1 IH]; intros [|[l2 r2] p2] Hl Hu Hi; try done.
  csimpl in *. injection Hl as -> Hl. injection Hu as Hu1 Hu. injection Hi as Hi1 Hi.
  rewrite Hu1, Hi1. f_equal. by apply IH.
Qed.

Lemma index_loc_user_item (pairs : DataFrame) :
  index (loc_user_item pairs) = index pairs.
Proof.
  unfold index, loc_user_item. rewrite <- list_fmap_compose.
  by apply list_fmap_ext.
Qed.

(** C9.  Two tables with the same row labels and the same [user] and
    [item] columns, whatever their other columns hold, get the same run of
    [predict]: the same result and the same calls. *)
Theorem predict_ignores_other_columns (p1 p2 : DataFrame) ratings tr :
  index p1 = index p2 →
  user <$> p1.*2 = user <$> p2.*2 →
  item <$> p1.*2 = item <$> p2.*2 →
  predict p1 ratings tr = predict p2 ratings tr.
Proof.
  intros Hl Hu Hi. unfold predict. destruct ratings; [done|].
  by rewrite (loc_user_item_columns p1 p2), Hl.
Qed.

End aggregator.

(** C8.  Users [1, 1, 2] and items [10, 20, 10]: if [predict_for_user]
    answers {10: 3.5, 20: no value} for user 1 with the items of user 1 and {10: 4.0}
    for user 2, then [predict] returns [3.5, no value, 4.0] in input
    order. *)
Theorem predict_concrete_scenario `{P : Predictor Q} preds1 preds2 :
  predict_for_user 1 [(0, 10); (1, 20)] None = Ok preds1 →
  preds1 ≡ₚ [(10, Some (Qmake 7 2)); (20, None)] →
  predict_for_user 2 [(2, 10)] None = Ok preds2 →
  preds2 ≡ₚ [(10, Some (Qmake 4 1))] →
  (predict scenario_pairs None []).2 =
    Ok (SeriesOf [(0, Some (Qmake 7 2)); (1, None); (2, Some (Qmake 4 1))]).
Proof.
  intros H1 Hp1 H2 Hp2.
  assert (answer 1 scenario_pairs = Ok preds1) as Ha1 by exact H1.
  assert (answer 2 scenario_pairs = Ok preds2) as Ha2 by exact H2.
  assert (preds_of 1 scenario_pairs = preds1) as E1
    by (unfold preds_of; by rewrite Ha1).
  assert (preds_of 2 scenario_pairs = preds2) as E2
    by (unfold preds_of; by rewrite Ha2).
  rewrite predict_by_rows_mapping.
  - change (Ok (SeriesOf [(0, score_of (preds_of 1 scenario_pairs) 10);
                (1, score_of (preds_of 1 scenario_pairs) 20);
                (2, score_of (preds_of 2 scenario_pairs) 10)]) =
            Ok (SeriesOf [(0, Some (Qmake 7 2)); (1, None); (2, Some (Qmake 4 1))])).
    rewrite E1, E2.
    apply Permutation_sym, Permutation_length_2_inv in Hp1 as [->| ->];
      apply Permutation_singleton_r in Hp2 as ->; reflexivity.
  - by_compute.
  - exists 1, 2. split_and!; [by_compute|by_compute|done].
  - intros u Hu. unfold is_mapping.
    assert (u = 1 ∨ u = 2) as [-> | ->].
    { vm_compute in Hu. set_solver. }
    + exists preds1. split; [done|]. rewrite Hp1. by_compute.
    + exists preds2. split; [done|]. rewrite Hp2. by_compute.
Qed.

(** *** Instances *)

Lemma full_predictor_honours_contract : honours_contract (P := full_predictor).
Proof.
  intros u items. eexists. split; [reflexivity|].
  unfold is_mapping. rewrite <- list_fmap_compose.
  rewrite (list_fmap_ext _ id (unique items.*2)) by done. rewrite list_fmap_id.
  split; [apply NoDup_unique|]. intros i. apply elem_of_unique.
Qed.

(** C1.  The claim fails on a table with a single user: the index is the
    positional one, the predictor honours its contract, and [predict] makes
    its one call and then raises [KeyError] at the selection by label, because
    pandas has laid the single group's result out as a one-row DataFrame. *)
Theorem predict_single_user_raises :
  honours_contract (P := full_predictor) ∧
  NoDup (index single_user_pairs) ∧
  predict (P := full_predictor) single_user_pairs None [] =
    ([(1, [(0, 10); (1, 20)])], Raise KeyError) ∧
  ¬ order_preserved (P := full_predictor) single_user_pairs.
Proof.
  split; [exact full_predictor_honours_contract|]. split; [by_compute|].
  split; [reflexivity|].
  intros (out & Hout & _). vm_compute in Hout. discriminate Hout.
Qed.

(** The output for a table with a repeated row label and two users has more
    entries than the table has rows: the selection by label returns every
    entry under a label for each row that carries it. *)
Lemma predict_duplicate_labels_not_preserved :
  honours_contract (P := full_predictor) ∧
  (predict (P := full_predictor) duplicate_label_pairs None []).2 =
    Ok (SeriesOf
          [(0, Some 110); (0, Some 210); (0, Some 110); (0, Some 210); (1, Some 220)]) ∧
  ¬ order_preserved (P := full_predictor) duplicate_label_pairs.
Proof.
  split; [exact full_predictor_honours_contract|]. split; [reflexivity|].
  intros (out & Hout & Hlen & _).
  vm_compute in Hout. injection Hout as <-. discriminate Hlen.
Qed.

(** C4.  The claim fails on a table with a single user, by the same defect
    as C1: the answer has no entry for item 20, and instead of an output with
    no value for that row [predict] raises [KeyError]. *)
Theorem predict_single_user_missing_item_raises :
  answer (P := partial_predictor) 1 single_user_pairs = Ok [(10, Some 110)] ∧
  predict (P := partial_predictor) single_user_pairs None [] =
    ([(1, [(0, 10); (1, 20)])], Raise KeyError).
Proof. split; reflexivity. Qed.

(** A table built from a plain sequence of rows has distinct labels. *)
Lemma DataFrame_of_rows_index (rows : list row) :
  index (DataFrame_of_rows rows) = Z.of_nat <$> seq 0 (length rows).
Proof.
  unfold index, DataFrame_of_rows. apply fst_zip.
  by rewrite length_fmap, length_seq.
Qed.

Lemma DataFrame_of_rows_NoDup (rows : list row) :
  NoDup (index (DataFrame_of_rows rows)).
Proof.
  rewrite DataFrame_of_rows_index. apply NoDup_fmap_2; [apply _|].
  apply NoDup_seq.
Qed.

Lemma predict_concrete_scenario_witness :
  (predict (P := scenario_predictor) scenario_pairs None []).2 =
    Ok (SeriesOf [(0, Some (Qmake 7 2)); (1, None); (2, Some (Qmake 4 1))]).
Proof.
  apply (predict_concrete_scenario (P := scenario_predictor)
           [(10, Some (Qmake 7 2)); (20, None)] [(10, Some (Qmake 4 1))]);
    reflexivity.
Defined.

Lemma predict_ignores_other_columns_witness :
  predict (P := scenario_predictor) scenario_pairs None [] =
  predict (P := scenario_predictor) rated_pairs None [].
Proof.
  apply (predict_ignores_other_columns (P := scenario_predictor)); reflexivity.
Defined.

End PredictFacts.
(** ** Facts about objects *)

Module ObjectsFacts.
Import Objects Fixtures.

Lemma lookup_merge_nested name (sps params : gmap string value) k v :
  merge_nested name sps params !! k = Some v →
  (∃ k', k = name +:+ "__" +:+ k' ∧ sps !! k' = Some v) ∨ params !! k = Some v.
Proof.
  unfold merge_nested. revert k v.
  apply (map_fold_weak_ind
    (λ r (m : gmap string value), ∀ k v, r !! k = Some v →
       (∃ k', k = name +:+ "__" +:+ k' ∧ m !! k' = Some v) ∨ params !! k = Some v)).
  - intros k v Hk. by right.
  - intros i x m r Hi IH k v Hk.
    destruct (decide (k = name +:+ "__" +:+ i)) as [->|Hne].
    + rewrite lookup_insert_eq in Hk. simplify_eq. left. exists i.
      by rewrite lookup_insert_eq.
    + rewrite lookup_insert_ne in Hk by done.
      destruct (IH k v Hk) as [(k' & -> & Hk')|?]; [|by right].
      left. exists k'. split; [done|]. rewrite lookup_insert_ne; [done|].
      intros ->. congruence.
Qed.

Lemma merge_nested_singleton name k v (params : gmap string value) :
  merge_nested name {[ k := v ]} params = <[name +:+ "__" +:+ k := v]> params.
Proof. unfold merge_nested. by rewrite map_fold_singleton. Qed.

(** The loop body, case by case. *)
Lemma get_params_body_eq recur deep self name params h :
  get_params_body recur deep self name params h =
    match getattr h self name with
    | None => (h, Ok params)
    | Some value =>
        if deep && has_get_params h value then
          match value with
          | VRef l =>
              match recur l h with
              | (h', Ok sps) => (h', Ok (merge_nested name sps (<[name := value]> params)))
              | (h', Raise e) => (h', Raise e)
              end
          | _ => (h, Ok (<[name := value]> params))
          end
        else (h, Ok (<[name := value]> params))
    end.
Proof.
  unfold get_params_body, mbind, SE_bind, gets, mret, SE_ret. simpl.
  destruct (getattr h self name) as [value|]; [|done].
  destruct (deep && has_get_params h value); [|done].
  by destruct value.
Qed.

Lemma get_params_S limit deep self h :
  get_params (S limit) deep self h =
    for_each (signature h self) (get_params_body (get_params limit deep) deep self) ∅ h.
Proof. done. Qed.

Lemma for_each_cons {S A B} x (xs : list A) (body : A → B → SE S B) acc s :
  for_each (x :: xs) body acc s =
    match body x acc s with
    | (s', Ok acc') => for_each xs body acc' s'
    | (s', Raise e) => (s', Raise e)
    end.
Proof. done. Qed.

(** A loop whose body leaves the state alone leaves the state alone. *)
Lemma for_each_read_only {S A B} (xs : list A) (body : A → B → SE S B) acc s :
  (∀ x acc, (body x acc s).1 = s) → (for_each xs body acc s).1 = s.
Proof.
  intros Hbody. revert acc. induction xs as [|x xs IH]; intros acc; [done|].
  rewrite for_each_cons. specialize (Hbody x acc).
  destruct (body x acc s) as [s' [acc'|e]]; simpl in *; subst; [apply IH|done].
Qed.

Lemma get_params_read_only limit deep self h :
  (get_params limit deep self h).1 = h.
Proof.
  revert self. induction limit as [|limit IH]; intros self; [done|].
  rewrite get_params_S. apply for_each_read_only. intros name acc.
  rewrite get_params_body_eq.
  destruct (getattr h self name) as [value|]; [|done].
  destruct (deep && has_get_params h value); [|done].
  destruct value; try done. specialize (IH l).
  by destruct (get_params limit deep l h) as [h' [sps|e]].
Qed.

Lemma hasattr_true h l name : hasattr h l name = true ↔ is_Some (getattr h l name).
Proof. unfold hasattr. by rewrite bool_decide_eq_true. Qed.

Lemma has_get_params_ref h value :
  has_get_params h value = true → ∃ l, value = VRef l.
Proof. destruct value; try done. eauto. Qed.

(** Where the entries of the mapping built by the loop come from: the
    accumulator, a parameter that is an attribute, or the parameters of a
    nested value under a prefixed key. *)
Lemma for_each_get_params_keys recur deep self h xs acc params :
  (∀ l, (recur l h).1 = h) →
  (for_each xs (get_params_body recur deep self) acc h).2 = Ok params →
  ∀ k v, params !! k = Some v →
    acc !! k = Some v ∨
    (k ∈ xs ∧ getattr h self k = Some v) ∨
    (deep = true ∧ ∃ name l k' sps,
       k = name +:+ "__" +:+ k' ∧ name ∈ xs ∧
       getattr h self name = Some (VRef l) ∧ has_get_params h (VRef l) = true ∧
       (recur l h).2 = Ok sps ∧ sps !! k' = Some v).
Proof.
  intros Hro. revert acc. induction xs as [|x xs IH]; intros acc Hrun k v Hk.
  { simpl in Hrun. simplify_eq. by left. }
  rewrite for_each_cons, get_params_body_eq in Hrun.
  assert (∀ acc', (for_each xs (get_params_body recur deep self) acc' h).2 = Ok params →
            (acc' !! k = Some v →
               acc !! k = Some v ∨ (k = x ∧ getattr h self k = Some v) ∨
               (deep = true ∧ ∃ l k' sps,
                  k = x +:+ "__" +:+ k' ∧ getattr h self x = Some (VRef l) ∧
                  has_get_params h (VRef l) = true ∧
                  (recur l h).2 = Ok sps ∧ sps !! k' = Some v)) →
            acc !! k = Some v ∨
            (k ∈ x :: xs ∧ getattr h self k = Some v) ∨
            (deep = true ∧ ∃ name l k' sps,
               k = name +:+ "__" +:+ k' ∧ name ∈ x :: xs ∧
               getattr h self name = Some (VRef l) ∧ has_get_params h (VRef l) = true ∧
               (recur l h).2 = Ok sps ∧ sps !! k' = Some v)) as Hstep.
  { intros acc' Hrun' Hacc'.
    destruct (IH acc' Hrun' k v Hk) as [Ha|[[Hin Hg]|(Hd & name & l & k' & sps & ? & ? & ?)]].
    - destruct (Hacc' Ha) as [?|[[-> ?]|(Hd & l & k' & sps & ? & ?)]]; [by left| |].
      + right; left. split; [set_solver|done].
      + right; right. split; [done|]. exists x, l, k', sps. split_and!; try done; set_solver.
    - right; left. split; [set_solver|done].
    - right; right. split; [done|]. exists name, l, k', sps. split_and!; try done; set_solver. }
  destruct (getattr h self x) as [value|] eqn:Hattr.
  - destruct (deep && has_get_params h value) eqn:Hdeep.
    + apply andb_true_iff in Hdeep as [-> Hnested].
      destruct (has_get_params_ref _ _ Hnested) as [l ->].
      pose proof (Hro l) as Hl.
      destruct (recur l h) as [h' [sps|e]] eqn:Hrec; simpl in Hl; subst h'; [|done].
      apply (Hstep _ Hrun). intros [(k' & -> & Hk')|Hins]%lookup_merge_nested.
      * right; right. split; [done|]. exists l, k', sps. by rewrite Hrec.
      * destruct (decide (k = x)) as [->|Hne].
        -- rewrite lookup_insert_eq in Hins. simplify_eq. by right; left.
        -- rewrite lookup_insert_ne in Hins by done. by left.
    + apply (Hstep _ Hrun). intros Hins.
      destruct (decide (k = x)) as [->|Hne].
      * rewrite lookup_insert_eq in Hins. simplify_eq. by right; left.
      * rewrite lookup_insert_ne in Hins by done. by left.
  - apply (Hstep _ Hrun). by left.
Qed.

Lemma for_each_returns {S A B} (xs : list A) (body : A → B → SE S B) acc s :
  (∀ x acc, x ∈ xs → ∃ acc', body x acc s = (s, Ok acc')) →
  ∃ r, for_each xs body acc s = (s, Ok r).
Proof.
  revert acc. induction xs as [|x xs IH]; intros acc Hbody; [by eexists|].
  rewrite for_each_cons. destruct (Hbody x acc) as [acc' ->]; [set_solver|].
  apply IH. intros; apply Hbody; set_solver.
Qed.

(** [get_params] returns when the nesting is within the recursion limit,
    and always when it is shallow. *)
Lemma get_params_returns limit deep self h :
  nesting_within limit h self ∨ (deep = false ∧ limit ≠ O) →
  ∃ params, get_params limit deep self h = (h, Ok params).
Proof.
  revert self. induction limit as [|limit IH]; intros self Hn.
  { destruct Hn as [[]|[_ []]]; done. }
  rewrite get_params_S. apply for_each_returns. intros name acc Hname.
  rewrite get_params_body_eq.
  destruct (getattr h self name) as [value|] eqn:Hattr; [|by eexists].
  destruct (deep && has_get_params h value) eqn:Hdeep; [|by eexists].
  apply andb_true_iff in Hdeep as [-> Hnested].
  destruct (has_get_params_ref _ _ Hnested) as [l ->].
  destruct Hn as [Hn|[? _]]; [|done].
  destruct (IH l) as [sps ->]; [left; by eapply Hn|]. by eexists.
Qed.

(** C5 (as amended).  [get_params] leaves the heap as it found it.  For an
    algorithm whose constructor declares no parameters it returns the empty
    mapping.  It returns whenever the nesting of parameterized values is
    within the recursion limit, and always when [deep] is false.  Every key
    of the mapping it returns is either a constructor-parameter name that the
    instance exposes as an attribute, or -- only when [deep] is true -- a
    flattened key [name__k], where [name] is such a parameter, its value
    answers [get_params], and [k] is a key of that value's parameters. *)
Theorem get_params_keys limit deep self h :
  (get_params limit deep self h).1 = h ∧
  (signature h self = [] → get_params (S limit) deep self h = (h, Ok ∅)) ∧
  (nesting_within (S limit) h self ∨ deep = false →
     ∃ params, get_params (S limit) deep self h = (h, Ok params)) ∧
  (∀ params k, (get_params (S limit) deep self h).2 = Ok params →
     is_Some (params !! k) →
     (k ∈ signature h self ∧ hasattr h self k = true) ∨
     (deep = true ∧ ∃ name l k' sps,
        k = name +:+ "__" +:+ k' ∧ name ∈ signature h self ∧
        getattr h self name = Some (VRef l) ∧ has_get_params h (VRef l) = true ∧
        (get_params limit deep l h).2 = Ok sps ∧ is_Some (sps !! k'))).
Proof.
  split_and!.
  - apply get_params_read_only.
  - intros Hsig. by rewrite get_params_S, Hsig.
  - intros Hn. apply get_params_returns. naive_solver.
  - intros params k Hrun [v Hk]. rewrite get_params_S in Hrun.
    destruct (for_each_get_params_keys _ _ _ _ _ _ _
                (λ l, get_params_read_only limit deep l h) Hrun k v Hk)
      as [Hemp|[[Hin Hg]|Hnested]].
    + by rewrite lookup_empty in Hemp.
    + left. split; [done|]. apply hasattr_true. by rewrite Hg.
    + right. naive_solver.
Qed.

(** An algorithm without constructor parameters has no parameters. *)
Example get_params_bare :
  get_params 1 true 4 sample_heap = (sample_heap, Ok ∅).
Proof. reflexivity. Qed.

(** C5, as stated, fails when [deep] is true: [b__c] is a constructor
    parameter of [Clash], the instance has no attribute of that name, and the
    mapping has the key [b__c], flattened from the parameter [c] of [b]. *)
Lemma get_params_flattened_key_clash :
  "b__c" ∈ signature sample_heap 3 ∧
  hasattr sample_heap 3 "b__c" = false ∧
  ∃ params,
    (get_params 2 true 3 sample_heap).2 = Ok params ∧
    params !! "b__c" = Some (VInt 7).
Proof.
  split; [by_compute|]. split; [reflexivity|].
  eexists. split; [reflexivity|]. reflexivity.
Qed.

(** C6.  An algorithm with constructor parameters [a] and [b], where the
    value of [b] is a sub-algorithm with the one parameter [c] and the values
    of [a] and [c] are not themselves parameterized: the deep mapping is
    exactly {a, b, b__c} and the shallow one exactly {a, b}, each key bound
    to the attribute value. *)
Theorem get_params_nested limit h self lb va vc :
  signature h self = ["a"; "b"] →
  getattr h self "a" = Some va →
  getattr h self "b" = Some (VRef lb) →
  has_get_params h va = false →
  has_get_params h (VRef lb) = true →
  signature h lb = ["c"] →
  getattr h lb "c" = Some vc →
  has_get_params h vc = false →
  get_params (S (S limit)) true self h =
    (h, Ok {[ "a" := va; "b" := VRef lb; "b__c" := vc ]}) ∧
  get_params (S limit) false self h =
    (h, Ok {[ "a" := va; "b" := VRef lb ]}).
Proof.
  intros Hsig Ha Hb Hva Hlb Hsigb Hc Hvc. split.
  - rewrite get_params_S, Hsig.
    rewrite for_each_cons, get_params_body_eq, Ha, Hva. cbn [andb].
    rewrite for_each_cons, get_params_body_eq, Hb, Hlb. cbn [andb].
    rewrite get_params_S, Hsigb.
    rewrite for_each_cons, get_params_body_eq, Hc, Hvc. cbn [andb].
    unfold for_each, mret, SE_ret.
    rewrite (insert_empty "c"), merge_nested_singleton.
    reflexivity.
  - rewrite get_params_S, Hsig.
    rewrite for_each_cons, get_params_body_eq, Ha. cbn [andb].
    rewrite for_each_cons, get_params_body_eq, Hb. cbn [andb].
    unfold for_each, mret, SE_ret.
    reflexivity.
Qed.

Lemma get_params_nested_witness :
  get_params 2 true 1 sample_heap =
    (sample_heap, Ok {[ "a" := VInt 3; "b" := VRef 2; "b__c" := VInt 7 ]}) ∧
  get_params 1 false 1 sample_heap =
    (sample_heap, Ok {[ "a" := VInt 3; "b" := VRef 2 ]}).
Proof.
  apply (get_params_nested 0 sample_heap 1 2 (VInt 3) (VInt 7)); reflexivity.
Defined.

(** [update_dict] on an object that is there. *)
Lemma update_dict_eq self other (h : heap) o :
  h !! self = Some o →
  update_dict self other h =
    (<[self := Object (obj_class o) (dict_update (obj_dict o) other)]> h, Ok tt).
Proof.
  intros Ho. unfold update_dict, modify. f_equal.
  apply map_eq. intros l. rewrite lookup_alter, lookup_insert.
  case_decide; subst; by rewrite ?Ho.
Qed.

Lemma lookup_dict_update (d other : gmap string value) k :
  dict_update d other !! k =
    match other !! k with
    | Some v => Some v
    | None => d !! k
    end.
Proof.
  unfold dict_update. rewrite lookup_union.
  by destruct (other !! k), (d !! k).
Qed.

(** C10.  Say the unpickler returns the object at [lo], whose state is
    [stored], and the current instance is [o] at that moment (as it was
    before the call, for an unpickler that only builds new objects).  Then
    [load] returns, the instance keeps its class, every field of [stored]
    is now a field of the instance with the stored value, every other field
    of the instance is as it was, no field is removed, and no other object
    changes. *)
Theorem load_merges_fields (pickle_load : string → Py value)
    self file h h1 lo o stored :
  pickle_load file h = (h1, Ok (VRef lo)) →
  h1 !! self = Some o →
  h1 !! lo = Some stored →
  ∃ h2 o',
    load pickle_load self file h = (h2, Ok tt) ∧
    h2 !! self = Some o' ∧
    obj_class o' = obj_class o ∧
    (∀ k v, obj_dict stored !! k = Some v → obj_dict o' !! k = Some v) ∧
    (∀ k, obj_dict stored !! k = None → obj_dict o' !! k = obj_dict o !! k) ∧
    dom (obj_dict o) ⊆ dom (obj_dict o') ∧
    (∀ l, l ≠ self → h2 !! l = h1 !! l).
Proof.
  intros Hload Hself Hlo. do 2 eexists. split_and!.
  - unfold load, mbind, SE_bind. rewrite Hload. unfold get_dict. rewrite Hlo.
    by apply update_dict_eq.
  - by rewrite lookup_insert_eq.
  - done.
  - intros k v Hk. simpl. by rewrite lookup_dict_update, Hk.
  - intros k Hk. simpl. by rewrite lookup_dict_update, Hk.
  - intros k [v Hk]%elem_of_dom. apply elem_of_dom. simpl.
    rewrite lookup_dict_update. destruct (obj_dict stored !! k); eauto.
  - intros l Hl. by rewrite lookup_insert_ne.
Qed.

(** An exception of the unpickler leaves [load] as it is, and the instance is
    not updated. *)
Lemma load_propagates (pickle_load : string → Py value) self file h h1 e :
  pickle_load file h = (h1, Raise e) →
  load pickle_load self file h = (h1, Raise e).
Proof. intros Hload. unfold load, mbind, SE_bind. by rewrite Hload. Qed.

Lemma load_merges_fields_witness :
  ∃ h2 o',
    load sample_pickle_load 1 "model.pkl" sample_heap = (h2, Ok tt) ∧
    h2 !! 1%positive = Some o' ∧
    obj_class o' = obj_class outer_instance ∧
    (∀ k v, obj_dict stored_object !! k = Some v → obj_dict o' !! k = Some v) ∧
    (∀ k, obj_dict stored_object !! k = None →
       obj_dict o' !! k = obj_dict outer_instance !! k) ∧
    dom (obj_dict outer_instance) ⊆ dom (obj_dict o') ∧
    (∀ l, l ≠ 1%positive →
       h2 !! l = (<[fresh (dom sample_heap) := stored_object]> sample_heap) !! l).
Proof.
  apply (load_merges_fields sample_pickle_load 1 "model.pkl" sample_heap
           (<[fresh (dom sample_heap) := stored_object]> sample_heap)
           (fresh (dom sample_heap)) outer_instance stored_object).
  - reflexivity.
  - by vm_compute.
  - by rewrite lookup_insert_eq.
Defined.

(** C7.  [adapt] returns a Recommender as it is, and hands any other
    algorithm to the [TopN] constructor.  Given that what [TopN] builds is a
    Recommender, adapting the result of [adapt] returns that very object and
    allocates nothing. *)
Theorem adapt_idempotent (TopN : value → Py value) :
  (∀ algo h h' w, TopN algo h = (h', Ok w) → isinstance h' w "Recommender" = true) →
  ∀ X h,
    (isinstance h X "Recommender" = true → adapt TopN X h = (h, Ok X)) ∧
    (isinstance h X "Recommender" = false → adapt TopN X h = TopN X h) ∧
    (∀ h' Y, adapt TopN X h = (h', Ok Y) → adapt TopN Y h' = (h', Ok Y)).
Proof.
  intros HTopN X h.
  assert (∀ Z h0, isinstance h0 Z "Recommender" = true →
            adapt TopN Z h0 = (h0, Ok Z)) as Hrec.
  { intros Z h0 HZ. unfold adapt, mbind, SE_bind, gets. by rewrite HZ. }
  split_and!.
  - apply Hrec.
  - intros HX. unfold adapt, mbind, SE_bind, gets. by rewrite HX.
  - intros h' Y Hrun. apply Hrec.
    destruct (isinstance h X "Recommender") eqn:HX.
    + rewrite Hrec in Hrun by done. by simplify_eq.
    + unfold adapt, mbind, SE_bind, gets in Hrun. rewrite HX in Hrun.
      by eapply HTopN.
Qed.

Lemma TopN_new_recommender algo h h' w :
  TopN_new algo h = (h', Ok w) → isinstance h' w "Recommender" = true.
Proof.
  unfold TopN_new. intros [= <- <-]. simpl. by rewrite lookup_insert_eq.
Qed.

Lemma adapt_idempotent_witness :
  adapt TopN_new (VRef 5) sample_heap = (sample_heap, Ok (VRef 5)) ∧
  adapt TopN_new (VRef 4) sample_heap = TopN_new (VRef 4) sample_heap ∧
  (∀ h' Y, adapt TopN_new (VRef 4) sample_heap = (h', Ok Y) →
     adapt TopN_new Y h' = (h', Ok Y)).
Proof.
  destruct (adapt_idempotent TopN_new TopN_new_recommender (VRef 5) sample_heap)
    as (Hrec & _ & _).
  destruct (adapt_idempotent TopN_new TopN_new_recommender (VRef 4) sample_heap)
    as (_ & Hwrap & Hidem).
  split; [apply Hrec; reflexivity|]. split; [apply Hwrap; reflexivity|]. exact Hidem.
Defined.

(** The wrapper that [adapt] builds for the [Bare] instance is a new object
    that holds the instance. *)
Lemma adapt_wraps_algorithm :
  ∃ h' l w,
    adapt TopN_new (VRef 4) sample_heap = (h', Ok (VRef l)) ∧
    sample_heap !! l = None ∧
    h' !! l = Some w ∧
    obj_class w = TopN_class ∧
    obj_dict w !! "predictor" = Some (VRef 4).
Proof.
  do 3 eexists. split; [reflexivity|]. split; [by vm_compute|].
  split; [by rewrite lookup_insert_eq|]. split; reflexivity.
Qed.

End ObjectsFacts.

(** ** More about the aggregator *)

Module PredictMore.
Import Frames Predict FramesFacts PredictFacts Fixtures MoreFixtures.

(** The entries a left join gives one row. *)
Lemma elem_of_join_row {V} (preds : list (Z * option V)) (e : Z * (Z * Z)) x :
  x ∈ join_row preds e ↔
  x.1 = e.1 ∧ ((e.2.2, x.2) ∈ preds ∨ (x.2 = None ∧ e.2.2 ∉ preds.*1)).
Proof.
  unfold join_row. destruct (matches e.2.2 preds) as [|m ms] eqn:Hm.
  - pose proof (proj1 (matches_nil _ _) Hm) as Hnot.
    rewrite list_elem_of_singleton. destruct x as [l v]. simpl. split.
    + intros [= -> ->]. eauto.
    + intros [-> [Hin|[-> _]]]; [|done]. destruct Hnot.
      apply list_elem_of_fmap. by exists (e.2.2, v).
  - rewrite list_elem_of_fmap. destruct x as [l v]. simpl. split.
    + intros (v' & [= -> ->] & Hin). split; [done|]. left.
      apply elem_of_matches. by rewrite Hm.
    + intros [-> [Hin|[_ Hnot]]].
      * exists v. split; [done|]. rewrite <- Hm. by apply elem_of_matches.
      * apply matches_nil in Hnot. simpl in *. congruence.
Qed.

(** Grouping by a key, in first-appearance order of the keys, only
    rearranges a list. *)
Lemma join_split_key {B} (g : Z → list B) (us : list Z) a :
  NoDup us →
  mjoin (g <$> us) ≡ₚ
    (if decide (a ∈ us) then g a else []) ++ mjoin (g <$> filter (λ u, u ≠ a) us).
Proof.
  induction us as [|b us IH]; intros Hnd.
  { rewrite decide_False by set_solver. done. }
  apply NoDup_cons in Hnd as [Hb Hnd]. csimpl. rewrite filter_cons.
  destruct (decide (b = a)) as [->|Hne].
  - rewrite decide_True by set_solver. rewrite decide_False by naive_solver.
    assert (filter (λ u, u ≠ a) us = us) as ->; [|done].
    clear IH Hnd. induction us as [|c us IHus]; [done|].
    rewrite filter_cons. rewrite decide_True by set_solver.
    f_equal. apply IHus. set_solver.
  - rewrite (decide_True (P := b ≠ a)) by done. csimpl. rewrite (IH Hnd).
    assert (∀ X Y : list B,
      (if decide (a ∈ us) then X else Y) = if decide (a ∈ b :: us) then X else Y) as <-.
    { intros X Y. repeat case_decide; set_solver. }
    by rewrite Permutation_app_swap_app.
Qed.

Lemma group_by_key_permutation {A} (f : A → Z) (l : list A) :
  mjoin ((λ u, filter (λ x, f x = u) l) <$> unique (f <$> l)) ≡ₚ l.
Proof.
  induction l as [|x l IH]; [done|]. csimpl.
  rewrite filter_cons, decide_True by done.
  assert ((λ u, filter (λ y, f y = u) (x :: l)) <$>
            filter (λ y, y ≠ f x) (unique (f <$> l)) =
          (λ u, filter (λ y, f y = u) l) <$>
            filter (λ y, y ≠ f x) (unique (f <$> l))) as ->.
  { apply list_fmap_ext. intros i u Hu.
    apply list_elem_of_lookup_2, list_elem_of_filter in Hu as [Hne _].
    rewrite filter_cons, decide_False; [done|]. naive_solver. }
  simpl. constructor. etrans; [|exact IH]. symmetry.
  etrans; [apply (join_split_key _ _ (f x)), NoDup_unique|].
  apply Permutation_app; [|done].
  case_decide as Hin; [done|].
  rewrite elem_of_unique in Hin.
  destruct (filter (λ y, f y = f x) l) as [|y ys] eqn:Hf; [done|].
  destruct Hin. assert (y ∈ filter (λ y, f y = f x) l) as Hy by (rewrite Hf; left).
  apply list_elem_of_filter in Hy as [<- Hy]. by apply list_elem_of_fmap_2.
Qed.

Lemma length_join_row {V} (preds : list (Z * option V)) (e : Z * (Z * Z)) :
  length (join_row preds e) = (1 `max` length (matches e.2.2 preds))%nat.
Proof.
  unfold join_row. destruct (matches e.2.2 preds) as [|m ms]; [done|].
  rewrite length_fmap. simpl. lia.
Qed.

(** A table all of whose rows are of one user has at most that one group. *)
Lemma unique_single (l : list Z) u :
  (∀ v, v ∈ l → v = u) → unique l = [] ∨ unique l = [u].
Proof.
  induction l as [|x l IH]; intros Hall; [by left|]. right. simpl.
  rewrite (Hall x) by set_solver.
  destruct IH as [-> | ->]; [set_solver|done|].
  by rewrite filter_cons, decide_False by naive_solver.
Qed.

(** The selection by label raises nothing but [KeyError], and raises it when
    a requested label is missing. *)
Lemma loc_labels_missing {V} (s : list (Z * V)) (labels : list Z) l :
  l ∈ labels → at_label l s = [] → loc_labels s labels = Raise KeyError.
Proof.
  intros Hl Hmiss. induction labels as [|l' ls IH]; [by apply elem_of_nil in Hl|].
  simpl. destruct (at_label l' s) as [|hit hits] eqn:Hhit; [done|].
  rewrite IH; [done|]. apply elem_of_cons in Hl as [->|Hl]; [congruence|done].
Qed.

(** One result or none is always stacked, and selecting rows of the
    stacked frame never gives a Series. *)
Lemma wrap_applied_output_short {V} (results : list (Z * list (Z * V))) :
  (length results ≤ 1)%nat →
  ∃ columns rows, wrap_applied_output results = Stacked columns rows.
Proof.
  destruct results as [|[u first] [|r rs]]; simpl; [eauto|eauto|lia].
Qed.

Lemma loc_stacked_no_series {V} (res : applied V) columns rows labels out :
  res = Stacked columns rows →
  loc (reset_index_level_user res) labels ≠ Ok (SeriesOf out).
Proof.
  intros ->. simpl. by destruct (loc_labels _ labels).
Qed.

Section aggregator.
Context {Score : Type} `{P : Predictor Score}.

Lemma apply_groups_length {V} (f : Pairs → M (Series label V)) groups tr tr' results :
  apply_groups f groups tr = (tr', Ok results) → length results = length groups.
Proof.
  revert tr tr' results. induction groups as [|[u df] gs IH]; intros tr tr' results.
  - by intros [= <- <-].
  - simpl. unfold mbind at 1, SE_bind at 1.
    destruct (f df tr) as [tr1 [s|e]]; [|done].
    unfold mbind at 1, SE_bind at 1.
    destruct (apply_groups f gs tr1) as [tr2 [rest|e]] eqn:Hrest; [|done].
    intros [= <- <-]. simpl. f_equal. by eapply IH.
Qed.

Lemma apply_groups_fails_fast (pairs : DataFrame) us1 u us2 e tr :
  (∀ v, v ∈ us1 ++ [u] → v ∈ users_column pairs) →
  (∀ v, v ∈ us1 → ∃ preds, answer v pairs = Ok preds) →
  answer u pairs = Raise e →
  apply_groups upred
    ((λ v, (v, group_rows v (loc_user_item pairs))) <$> (us1 ++ u :: us2)) tr =
  (tr ++ ((λ v, (v, requested_items v pairs)) <$> (us1 ++ [u])), Raise e).
Proof.
  revert tr. induction us1 as [|w us1 IH]; intros tr Hin Hret Hraise.
  - csimpl. unfold mbind at 1, SE_bind at 1.
    rewrite upred_group by (apply Hin; set_solver). by rewrite Hraise.
  - csimpl. unfold mbind at 1, SE_bind at 1.
    rewrite upred_group by (apply Hin; set_solver).
    destruct (Hret w) as [preds ->]; [set_solver|].
    unfold mbind at 1, SE_bind at 1.
    rewrite IH; [|intros; apply Hin; set_solver|intros; apply Hret; set_solver|done].
    by rewrite <- app_assoc.
Qed.

(** X1.  Fail fast: when the call for a user raises an exception other than
    [TypeError] and the calls for the users that first appear before that
    user return, [predict] raises that exception, and the calls made are
    exactly those up to and including the raising one: no later user is
    scored. *)
Theorem predict_fails_fast (pairs : DataFrame) tr us1 u us2 e :
  unique (users_column pairs) = us1 ++ u :: us2 →
  (∀ v, v ∈ us1 → ∃ preds, answer v pairs = Ok preds) →
  answer u pairs = Raise e →
  e ≠ TypeError →
  predict pairs None tr =
    (tr ++ ((λ v, (v, requested_items v pairs)) <$> (us1 ++ [u])), Raise e).
Proof.
  intros Hus Hret Hraise Hne. unfold predict, groupby_user.
  rewrite users_column_loc, Hus. unfold mbind, SE_bind, groupby_apply.
  rewrite (apply_groups_fails_fast pairs us1 u us2 e); [| |done|done].
  - by rewrite decide_False by done.
  - intros v Hv. apply elem_of_unique. rewrite Hus. set_solver.
Qed.

(** X16.  A [TypeError] raised by [predict_for_user] does not leave [predict]:
    pandas catches it and runs the closure again without the [user] column,
    which raises [KeyError] before another call is made.  The calls are
    those up to and including the one that raised [TypeError]. *)
Theorem predict_type_error_becomes_key_error (pairs : DataFrame) tr us1 u us2 :
  unique (users_column pairs) = us1 ++ u :: us2 →
  (∀ v, v ∈ us1 → ∃ preds, answer v pairs = Ok preds) →
  answer u pairs = Raise TypeError →
  predict pairs None tr =
    (tr ++ ((λ v, (v, requested_items v pairs)) <$> (us1 ++ [u])), Raise KeyError).
Proof.
  intros Hus Hret Hraise. unfold predict, groupby_user.
  rewrite users_column_loc, Hus. unfold mbind at 1, SE_bind at 1, groupby_apply.
  rewrite (apply_groups_fails_fast pairs us1 u us2 TypeError); [| |done|done].
  - rewrite decide_True by done. unfold mbind, SE_bind.
    rewrite apply_groups_user_excluded; [done|]. by destruct us1.
  - intros v Hv. apply elem_of_unique. rewrite Hus. set_solver.
Qed.

(** X2.  For a table with distinct row labels and rows of at least two
    users, when every call returns, the output is a Series whose entries are
    exactly these: for a row with label [l], each score the answer for the
    row's user holds for the row's item, and no value if it holds none.  No
    entry comes from another user's answer or for an item that was not
    requested in that row. *)
Theorem predict_output_entries (pairs : DataFrame) tr :
  NoDup (index pairs) → several_users pairs →
  (∀ u, u ∈ users_column pairs → ∃ preds, answer u pairs = Ok preds) →
  ∃ out,
    (predict pairs None tr).2 = Ok (SeriesOf out) ∧
    ∀ l v, (l, v) ∈ out ↔
      ∃ r preds, (l, r) ∈ pairs ∧ answer (user r) pairs = Ok preds ∧
        ((item r, v) ∈ preds ∨ (v = None ∧ item r ∉ preds.*1)).
Proof.
  intros Hnd Hsev Hret. eexists. split.
  { rewrite predict_concatenated; [done|done|]. by apply several_users_not_stacked. }
  intros l v. rewrite list_elem_of_join. split.
  - intros (blk & Hin & (l' & -> & Hl')%list_elem_of_fmap).
    apply list_elem_of_filter in Hin as [_ Hin].
    apply elem_of_regrouped in Hin as (e & He & Hx).
    apply list_elem_of_fmap in He as ([l0 r] & -> & Hr).
    apply elem_of_join_row in Hx as [Hl Hx]. simpl in *. subst l0.
    destruct (Hret (user r)) as [preds Hans].
    { apply list_elem_of_fmap. exists r. split; [done|].
      apply list_elem_of_fmap. by exists (l, r). }
    exists r, preds. unfold preds_of in Hx. rewrite Hans in Hx. done.
  - intros (r & preds & Hr & Hans & Hx).
    exists (at_label l (regrouped pairs)). split.
    + apply list_elem_of_filter. split; [done|].
      apply elem_of_regrouped. exists (l, (user r, item r)). split.
      * apply list_elem_of_fmap. by exists (l, r).
      * apply elem_of_join_row. simpl. unfold preds_of. by rewrite Hans.
    + apply list_elem_of_fmap. exists l. split; [done|].
      apply list_elem_of_fmap. by exists (l, r).
Qed.

(** X3.  Grouping is a partition of the rows: when every call returns, the
    item Series passed to the calls, put end to end, are a rearrangement of
    the [item] column of the table (labels included), so every row is handed
    to exactly one call. *)
Theorem predict_calls_partition_rows (pairs : DataFrame) tr :
  (∀ u, u ∈ users_column pairs → ∃ preds, answer u pairs = Ok preds) →
  ∃ calls,
    (predict pairs None tr).1 = tr ++ calls ∧
    mjoin calls.*2 ≡ₚ (λ lr : label * row, (lr.1, item lr.2)) <$> pairs.
Proof.
  intros Hret. exists (expected_calls pairs). split; [by rewrite predict_returns|].
  assert (∀ us : list Z,
    mjoin ((λ u, (u, requested_items u pairs)) <$> us).*2 =
    (λ lr : label * row, (lr.1, item lr.2)) <$>
      mjoin ((λ u, filter (λ lr : label * row, user lr.2 = u) pairs) <$> us)) as Hjoin.
  { induction us as [|u us IH]; [done|]. csimpl. by rewrite fmap_app, IH. }
  unfold expected_calls. rewrite Hjoin. apply fmap_Permutation.
  unfold users_column. rewrite <- list_fmap_compose.
  apply (group_by_key_permutation (λ lr : label * row, user lr.2)).
Qed.

(** X4.  Rows that repeat a (user, item) pair get the same score: with
    distinct row labels, rows of at least two users and answers that are
    mappings, the entries at the positions of two such rows carry the rows'
    labels and one and the same score. *)
Theorem predict_repeated_pair_same_score (pairs : DataFrame) i j li lj ri rj :
  NoDup (index pairs) → several_users pairs →
  (∀ u, u ∈ users_column pairs →
     ∃ preds, answer u pairs = Ok preds ∧ is_mapping preds) →
  pairs !! i = Some (li, ri) →
  pairs !! j = Some (lj, rj) →
  user ri = user rj →
  item ri = item rj →
  ∃ out s,
    (predict pairs None []).2 = Ok (SeriesOf out) ∧
    out !! i = Some (li, s) ∧ out !! j = Some (lj, s).
Proof.
  intros Hnd Hsev Hret Hi Hj Hu Hit. do 2 eexists.
  split; [by rewrite predict_by_rows_mapping|].
  rewrite !list_lookup_fmap, Hi, Hj. simpl. by rewrite Hu, Hit.
Qed.

(** X6.  With distinct row labels and rows of at least two users, each row
    contributes one output entry per entry the answer for its user holds for
    its item, and one entry if it holds none: an answer whose index repeats
    an item lengthens the output. *)
Theorem predict_output_length (pairs : DataFrame) tr :
  NoDup (index pairs) → several_users pairs →
  (∀ u, u ∈ users_column pairs → ∃ preds, answer u pairs = Ok preds) →
  ∃ out,
    (predict pairs None tr).2 = Ok (SeriesOf out) ∧
    length out =
      sum_list ((λ lr : label * row,
                   (1 `max` length (matches (item lr.2) (preds_of (user lr.2) pairs)))%nat)
                <$> pairs).
Proof.
  intros Hnd Hsev Hret. eexists. split; [by rewrite predict_by_rows|].
  rewrite length_join. unfold loc_user_item. rewrite <- !list_fmap_compose.
  f_equal. apply list_fmap_ext. intros k [l r] _. simpl.
  unfold row_output. by rewrite length_join_row.
Qed.

(** X14.  Order is preserved on tables with distinct row labels and rows of
    at least two users: for a predictor that honours its contract, [predict]
    returns a Series with one entry per row, and entry [i] carries the label
    of row [i] and the score [predict_for_user] gave the item of row [i] for
    the user of row [i]. *)
Theorem predict_order_preserved (pairs : DataFrame) :
  NoDup (index pairs) → several_users pairs → honours_contract →
  order_preserved pairs.
Proof. apply order_preserved_distinct_labels. Qed.

(** X15.  A table all of whose rows are of one user (or that has no row)
    never gets a Series: [predict] raises or returns a DataFrame.  If the
    call for that user returns and some row label is not 0, [predict] raises
    [KeyError]. *)
Theorem predict_single_user_no_series (pairs : DataFrame) tr u :
  (∀ v, v ∈ users_column pairs → v = u) →
  (∀ out, (predict pairs None tr).2 ≠ Ok (SeriesOf out)) ∧
  (∀ preds l, answer u pairs = Ok preds → l ∈ index pairs → l ≠ 0 →
     (predict pairs None tr).2 = Raise KeyError).
Proof.
  intros Hall. split.
  - intros out. unfold predict, groupby_user. rewrite users_column_loc.
    unfold mbind at 1, SE_bind at 1, groupby_apply. unfold mbind, SE_bind.
    set (groups := (λ v, (v, group_rows v (loc_user_item pairs))) <$>
                     unique (users_column pairs)).
    assert (length groups ≤ 1)%nat as Hlen.
    { unfold groups. rewrite length_fmap.
      destruct (unique_single (users_column pairs) u Hall) as [-> | ->]; simpl; lia. }
    destruct (apply_groups upred groups tr) as [tr1 [results|e]] eqn:Hrun.
    + apply apply_groups_length in Hrun.
      destruct (wrap_applied_output_short results) as (c & r & Hw); [lia|].
      simpl. intros Hout. revert Hout.
      destruct (loc _ _) eqn:Hloc; [|done]. intros [= ->].
      by eapply loc_stacked_no_series in Hloc.
    + case_decide; [|done].
      destruct (apply_groups (upred_user_excluded (Score := Score)) groups tr1) as [tr2 [results|e']] eqn:Hrun2;
        [|done].
      apply apply_groups_length in Hrun2.
      destruct (wrap_applied_output_short results) as (c & r & Hw); [lia|].
      simpl. intros Hout. revert Hout.
      destruct (loc _ _) eqn:Hloc; [|done]. intros [= ->].
      by eapply loc_stacked_no_series in Hloc.
  - intros preds l Hans Hl Hne.
    rewrite predict_returns; [|intros v ->%Hall; eauto]. simpl.
    assert (unique (users_column pairs) = [u]) as Hus.
    { destruct (unique_single (users_column pairs) u Hall) as [Hnil|]; [|done].
      apply list_elem_of_fmap in Hl as ([l' r] & _ & Hr).
      assert (user r ∈ unique (users_column pairs)) as Hin.
      { apply elem_of_unique, list_elem_of_fmap. exists r. split; [done|].
        apply list_elem_of_fmap. by exists (l', r). }
      rewrite Hnil in Hin. by apply elem_of_nil in Hin. }
    unfold group_results. rewrite Hus. simpl.
    rewrite (loc_labels_missing _ _ l); [done|done|].
    unfold at_label. rewrite filter_cons, decide_False; [done|]. cbn. intros <-. by apply Hne.
Qed.

(** X17.  An item that the answer for its user does not cover gets no value,
    in the row's place: on a table with distinct row labels and rows of at
    least two users, when the answers are mappings, the output is a Series
    with one entry per row, and the entry at the position of a row whose
    item is missing from the answer carries that row's label and no
    value. *)
Theorem predict_missing_item_no_value (pairs : DataFrame) tr i l r preds :
  NoDup (index pairs) → several_users pairs →
  (∀ u, u ∈ users_column pairs →
     ∃ preds, answer u pairs = Ok preds ∧ is_mapping preds) →
  pairs !! i = Some (l, r) →
  answer (user r) pairs = Ok preds →
  item r ∉ preds.*1 →
  ∃ out,
    (predict pairs None tr).2 = Ok (SeriesOf out) ∧
    length out = length pairs ∧
    out !! i = Some (l, None).
Proof.
  intros Hnd Hsev Hret Hi Hans Hmiss. eexists.
  split; [by rewrite predict_by_rows_mapping|].
  rewrite length_fmap. split; [done|].
  rewrite list_lookup_fmap, Hi. simpl. do 2 f_equal.
  unfold score_of, preds_of. rewrite Hans.
  apply matches_nil in Hmiss. by rewrite Hmiss.
Qed.

End aggregator.

(** Tables built from a plain sequence of rows of at least two users. *)
Corollary predict_order_preserved_positional `{P : Predictor Score}
    (rows : list row) :
  several_users (DataFrame_of_rows rows) → honours_contract →
  order_preserved (DataFrame_of_rows rows).
Proof. apply order_preserved_distinct_labels, DataFrame_of_rows_NoDup. Qed.

(** *** Instances *)

Lemma interleaved_several_users : several_users interleaved_pairs.
Proof. exists 2, 1. split_and!; [by_compute|by_compute|done]. Defined.

Lemma predict_fails_fast_witness :
  predict (P := failing_predictor) three_user_pairs None [] =
    ([(3, [(0, 10)]); (1, [(1, 10)])], Raise (OtherError "unknown user")).
Proof.
  apply (predict_fails_fast (P := failing_predictor) three_user_pairs [] [3] 1 [2]).
  - reflexivity.
  - intros v Hv. eexists. apply list_elem_of_singleton in Hv as ->. reflexivity.
  - reflexivity.
  - discriminate.
Defined.

Lemma predict_type_error_becomes_key_error_witness :
  predict (P := type_error_predictor) three_user_pairs None [] =
    ([(3, [(0, 10)]); (1, [(1, 10)])], Raise KeyError).
Proof.
  apply (predict_type_error_becomes_key_error (P := type_error_predictor)
           three_user_pairs [] [3] 1 [2]).
  - reflexivity.
  - intros v Hv. eexists. apply list_elem_of_singleton in Hv as ->. reflexivity.
  - reflexivity.
Defined.

Lemma predict_output_entries_witness :
  ∃ out,
    (predict (P := partial_predictor) interleaved_pairs None []).2 = Ok (SeriesOf out) ∧
    ∀ l v, (l, v) ∈ out ↔
      ∃ r preds, (l, r) ∈ interleaved_pairs ∧
        answer (P := partial_predictor) (user r) interleaved_pairs = Ok preds ∧
        ((item r, v) ∈ preds ∨ (v = None ∧ item r ∉ preds.*1)).
Proof.
  apply (predict_output_entries (P := partial_predictor) interleaved_pairs []).
  - by_compute.
  - exact interleaved_several_users.
  - intros u _. eexists. reflexivity.
Defined.

Lemma predict_calls_partition_rows_witness :
  ∃ calls,
    (predict (P := full_predictor) interleaved_pairs None []).1 = [] ++ calls ∧
    mjoin calls.*2 ≡ₚ (λ lr : label * row, (lr.1, item lr.2)) <$> interleaved_pairs.
Proof.
  apply (predict_calls_partition_rows (P := full_predictor) interleaved_pairs []).
  intros u _. eexists. reflexivity.
Defined.

Lemma predict_repeated_pair_same_score_witness :
  ∃ out s,
    (predict (P := full_predictor) interleaved_pairs None []).2 = Ok (SeriesOf out) ∧
    out !! 0%nat = Some (5, s) ∧ out !! 4%nat = Some (4, s).
Proof.
  apply (predict_repeated_pair_same_score (P := full_predictor)
           interleaved_pairs 0 4 5 4 (Row 2 10 []) (Row 2 10 []));
    try reflexivity.
  - by_compute.
  - exact interleaved_several_users.
  - intros u _. destruct (full_predictor_honours_contract u
      (requested_items u interleaved_pairs)) as (preds & ? & ? & _). eauto.
Defined.

Lemma predict_output_length_witness :
  ∃ out,
    (predict (P := echo_predictor) interleaved_pairs None []).2 = Ok (SeriesOf out) ∧
    length out =
      sum_list ((λ lr : label * row,
                   (1 `max` length (matches (item lr.2)
                      (preds_of (P := echo_predictor) (user lr.2) interleaved_pairs)))%nat)
                <$> interleaved_pairs).
Proof.
  apply (predict_output_length (P := echo_predictor) interleaved_pairs []).
  - by_compute.
  - exact interleaved_several_users.
  - intros u _. eexists. reflexivity.
Defined.

(** The echoing predictor on the five interleaved rows: nine entries. *)
Example predict_echo_lengthens :
  ∃ out,
    (predict (P := echo_predictor) interleaved_pairs None []).2 = Ok (SeriesOf out) ∧
    length out = 9%nat.
Proof. eexists. split; reflexivity. Qed.

Lemma predict_order_preserved_witness :
  order_preserved (P := full_predictor) interleaved_pairs.
Proof.
  apply (predict_order_preserved (P := full_predictor) interleaved_pairs).
  - by_compute.
  - exact interleaved_several_users.
  - exact full_predictor_honours_contract.
Defined.

Lemma predict_single_user_no_series_witness :
  (∀ out, (predict (P := full_predictor) single_user_pairs None []).2 ≠ Ok (SeriesOf out)) ∧
  (∀ preds l, answer (P := full_predictor) 1 single_user_pairs = Ok preds →
     l ∈ index single_user_pairs → l ≠ 0 →
     (predict (P := full_predictor) single_user_pairs None []).2 = Raise KeyError).
Proof.
  apply (predict_single_user_no_series (P := full_predictor) single_user_pairs [] 1).
  intros v Hv. vm_compute in Hv. set_solver.
Defined.

(** One user and one row: the result is a DataFrame with one row and one
    column, not a Series. *)
Example predict_single_row_frame :
  (predict (P := full_predictor) single_row_pairs None []).2 =
    Ok (FrameOf [0] [(0, [Some 110])]).
Proof. reflexivity. Qed.

(** The table without rows: an empty DataFrame, and no call. *)
Example predict_empty_table `{P : Predictor Score} :
  predict [] None [] = ([], Ok (FrameOf [] [])).
Proof. reflexivity. Qed.

Lemma predict_missing_item_no_value_witness :
  ∃ out,
    (predict (P := partial_predictor) interleaved_pairs None []).2 = Ok (SeriesOf out) ∧
    length out = length interleaved_pairs ∧
    out !! 2%nat = Some (7, None).
Proof.
  apply (predict_missing_item_no_value (P := partial_predictor)
           interleaved_pairs [] 2 7 (Row 2 20 []) [(10, Some 210)]).
  - by_compute.
  - exact interleaved_several_users.
  - intros u _. eexists. split; [reflexivity|].
    unfold is_mapping. rewrite <- list_fmap_compose.
    rewrite (list_fmap_ext _ id (filter _ _)) by done. rewrite list_fmap_id.
    apply NoDup_filter, NoDup_unique.
  - reflexivity.
  - reflexivity.
  - vm_compute. set_solver.
Defined.

End PredictMore.

(** ** More about objects *)

Module ObjectsMore.
Import Objects Fixtures MoreFixtures ObjectsFacts.

(** Flattening writes only keys of the form [name__k], and removes none. *)
Lemma lookup_merge_nested_other name (sps params : gmap string value) p :
  (∀ k', p ≠ name +:+ "__" +:+ k') →
  merge_nested name sps params !! p = params !! p.
Proof.
  intros Hp. unfold merge_nested.
  apply (map_fold_weak_ind (λ r (m : gmap string value), r !! p = params !! p)).
  - done.
  - intros i x m r _ IH. by rewrite lookup_insert_ne.
Qed.

Lemma merge_nested_is_Some name (sps params : gmap string value) :
  (∀ k, is_Some (params !! k) → is_Some (merge_nested name sps params !! k)) ∧
  (∀ k', is_Some (sps !! k') →
     is_Some (merge_nested name sps params !! (name +:+ "__" +:+ k'))).
Proof.
  unfold merge_nested.
  apply (map_fold_weak_ind (λ r (m : gmap string value),
    (∀ k, is_Some (params !! k) → is_Some (r !! k)) ∧
    (∀ k', is_Some (m !! k') → is_Some (r !! (name +:+ "__" +:+ k'))))).
  - split; [done|]. intros k'. rewrite lookup_empty. by intros [? ?].
  - intros i x m r Hi [IH1 IH2]. split.
    + intros k Hk. rewrite lookup_insert. case_decide; [by eexists|]. by apply IH1.
    + intros k' Hk'. rewrite lookup_insert. case_decide; [by eexists|].
      apply IH2. rewrite lookup_insert in Hk'. case_decide; [by subst|done].
Qed.

(** What one round of the loop does to the entry under a key [p] that is
    not a flattened key of the round. *)
Lemma get_params_body_lookup recur deep self h x acc acc' h' p :
  get_params_body recur deep self x acc h = (h', Ok acc') →
  (deep = false ∨ ∀ k', p ≠ x +:+ "__" +:+ k') →
  acc' !! p =
    if decide (p = x) then
      match getattr h self x with Some v => Some v | None => acc !! p end
    else acc !! p.
Proof.
  rewrite get_params_body_eq. intros Hrun Hp.
  destruct (getattr h self x) as [value|].
  - assert (<[x := value]> acc !! p =
              if decide (p = x) then Some value else acc !! p) as Hins.
    { rewrite lookup_insert. by repeat case_decide. }
    destruct (deep && has_get_params h value) eqn:Hdeep.
    + apply andb_true_iff in Hdeep as [-> Hnested].
      destruct Hp as [|Hp]; [done|].
      destruct (has_get_params_ref _ _ Hnested) as [l ->].
      destruct (recur l h) as [h'' [sps|e]]; simplify_eq.
      by rewrite lookup_merge_nested_other.
    + by simplify_eq.
  - simplify_eq. by case_decide.
Qed.

Lemma for_each_get_params_lookup recur deep self h xs acc params p :
  (∀ l, (recur l h).1 = h) →
  (for_each xs (get_params_body recur deep self) acc h).2 = Ok params →
  (deep = false ∨ ∀ name k', name ∈ xs → p ≠ name +:+ "__" +:+ k') →
  params !! p =
    match (if decide (p ∈ xs) then getattr h self p else None) with
    | Some v => Some v
    | None => acc !! p
    end.
Proof.
  intros Hro. revert acc. induction xs as [|x xs IH]; intros acc Hrun Hp.
  { simpl in Hrun. by simplify_eq. }
  rewrite for_each_cons in Hrun.
  destruct (get_params_body recur deep self x acc h) as [h' [acc'|e]] eqn:Hbody;
    [|done].
  assert (h' = h) as ->.
  { pose proof (f_equal fst Hbody) as Hh. simpl in Hh. rewrite <- Hh.
    rewrite get_params_body_eq.
    destruct (getattr h self x) as [value|]; [|done].
    destruct (deep && has_get_params h value); [|done].
    destruct value; try done. specialize (Hro l).
    by destruct (recur l h) as [? [?|?]]. }
  rewrite (IH acc' Hrun) by (destruct Hp as [|Hp]; [by left|right; intros; apply Hp; set_solver]).
  rewrite (get_params_body_lookup _ _ _ _ _ _ _ _ p Hbody)
    by (destruct Hp as [|Hp]; [by left|right; intros; apply Hp; set_solver]).
  destruct (decide (p = x)) as [->|Hne].
  - rewrite (decide_True (P := x ∈ x :: xs)) by set_solver.
    case_decide; by destruct (getattr h self x).
  - destruct (decide (p ∈ xs)).
    + by rewrite (decide_True (P := p ∈ x :: xs)) by set_solver.
    + by rewrite (decide_False (P := p ∈ x :: xs)) by set_solver.
Qed.

Lemma get_params_shallow_lookup limit self h :
  ∃ params,
    get_params (S limit) false self h = (h, Ok params) ∧
    ∀ p, params !! p =
           if decide (p ∈ signature h self) then getattr h self p else None.
Proof.
  destruct (get_params_returns (S limit) false self h) as [params Hrun];
    [by right|].
  exists params. split; [done|]. intros p.
  rewrite get_params_S in Hrun.
  rewrite (for_each_get_params_lookup (get_params limit false) false self h
             (signature h self) ∅ params p
             (λ l, get_params_read_only limit false l h));
    [|by rewrite Hrun|by left].
  rewrite lookup_empty. case_decide; [|done]. by destruct (getattr h self p).
Qed.

(** X7.  [get_params(deep=False)] always returns, and the mapping it
    returns is exactly the constructor parameters that the instance exposes,
    each bound to the value of the attribute. *)
Theorem get_params_shallow_exact limit self h :
  ∃ params,
    get_params (S limit) false self h = (h, Ok params) ∧
    ∀ p, params !! p =
           if decide (p ∈ signature h self) then getattr h self p else None.
Proof. apply get_params_shallow_lookup. Qed.

(** X8.  If no constructor-parameter name has the form [name__k] for a
    constructor parameter [name], then in the deep mapping every constructor
    parameter is bound to the value of the attribute of that name, and is
    absent when the instance has no such attribute. *)
Theorem get_params_deep_parameters limit self h :
  nesting_within (S limit) h self →
  (∀ p name k', p ∈ signature h self → name ∈ signature h self →
     p ≠ name +:+ "__" +:+ k') →
  ∃ params,
    get_params (S limit) true self h = (h, Ok params) ∧
    ∀ p, p ∈ signature h self → params !! p = getattr h self p.
Proof.
  intros Hn Hclash.
  destruct (get_params_returns (S limit) true self h) as [params Hrun];
    [by left|].
  exists params. split; [done|]. intros p Hp.
  rewrite get_params_S in Hrun.
  rewrite (for_each_get_params_lookup (get_params limit true) true self h
             (signature h self) ∅ params p
             (λ l, get_params_read_only limit true l h));
    [|by rewrite Hrun|right; intros; by apply Hclash].
  rewrite decide_True by done. rewrite lookup_empty.
  by destruct (getattr h self p).
Qed.

Lemma get_params_body_read_only recur deep self h x acc :
  (∀ l, (recur l h).1 = h) → (get_params_body recur deep self x acc h).1 = h.
Proof.
  intros Hro. rewrite get_params_body_eq.
  destruct (getattr h self x) as [value|]; [|done].
  destruct (deep && has_get_params h value); [|done].
  destruct value; try done. specialize (Hro l).
  by destruct (recur l h) as [? [?|?]].
Qed.

(** Keys once written stay, parameters that are attributes are written, and
    so are the flattened keys of nested values. *)
Lemma for_each_get_params_dom recur deep self h xs acc params :
  (∀ l, (recur l h).1 = h) →
  (for_each xs (get_params_body recur deep self) acc h).2 = Ok params →
  (∀ k, is_Some (acc !! k) → is_Some (params !! k)) ∧
  (∀ x, x ∈ xs → is_Some (getattr h self x) → is_Some (params !! x)) ∧
  (deep = true → ∀ name l sps k',
     name ∈ xs → getattr h self name = Some (VRef l) →
     has_get_params h (VRef l) = true →
     (recur l h).2 = Ok sps → is_Some (sps !! k') →
     is_Some (params !! (name +:+ "__" +:+ k'))).
Proof.
  intros Hro. revert acc. induction xs as [|x xs IH]; intros acc Hrun.
  { simpl in Hrun. simplify_eq. split_and!; [done|by intros ? ?%elem_of_nil|].
    by intros _ ???? ?%elem_of_nil. }
  rewrite for_each_cons in Hrun.
  pose proof (get_params_body_read_only recur deep self h x acc Hro) as Hh.
  destruct (get_params_body recur deep self x acc h) as [h' [acc'|e]] eqn:Hbody;
    simpl in Hh; subst h'; [|done].
  destruct (IH acc' Hrun) as (IHacc & IHattr & IHflat).
  rewrite get_params_body_eq in Hbody.
  assert ((∀ k, is_Some (acc !! k) → is_Some (acc' !! k)) ∧
          (is_Some (getattr h self x) → is_Some (acc' !! x)) ∧
          (deep = true → ∀ l sps k',
             getattr h self x = Some (VRef l) → has_get_params h (VRef l) = true →
             (recur l h).2 = Ok sps → is_Some (sps !! k') →
             is_Some (acc' !! (x +:+ "__" +:+ k')))) as (Hacc & Hattr & Hflat).
  { destruct (getattr h self x) as [value|] eqn:Hg.
    - assert (∀ k, is_Some (acc !! k) → is_Some (<[x := value]> acc !! k)) as Hins.
      { intros k Hk. rewrite lookup_insert. by case_decide; [eexists|]. }
      assert (is_Some (<[x := value]> acc !! x)) as Hx.
      { rewrite lookup_insert_eq. by eexists. }
      destruct (deep && has_get_params h value) eqn:Hdeep.
      + apply andb_true_iff in Hdeep as [-> Hnested].
        destruct (has_get_params_ref _ _ Hnested) as [l ->].
        destruct (recur l h) as [h'' [sps|e]] eqn:Hrec; simplify_eq.
        destruct (merge_nested_is_Some x sps (<[x := VRef l]> acc)) as [Hk1 Hk2].
        split_and!; [by intros; apply Hk1, Hins|by intros; apply Hk1|].
        intros _ l' sps' k' [= <-] _. rewrite Hrec. simpl. intros [= <-]. apply Hk2.
      + simplify_eq. split_and!; [done|done|].
        intros -> l sps k' [= ->] Hn. by rewrite Hn in Hdeep.
    - simplify_eq. split_and!; [done|by intros [? ?]|done]. }
  split_and!.
  - intros k Hk. by apply IHacc, Hacc.
  - intros y [->|Hy]%elem_of_cons Hgy; [by apply IHacc, Hattr|by apply IHattr].
  - intros Hd name l sps k' [->|Hname]%elem_of_cons Hg Hn Hrec Hk'.
    + apply IHacc. by eapply Hflat.
    + by eapply IHflat.
Qed.

(** X9.  No parameter is left out: when [get_params] returns, every
    constructor parameter that the instance exposes is a key of the mapping,
    and with [deep] every key [k] of the parameters of a nested value under
    parameter [name] appears as the key [name__k]. *)
Theorem get_params_keys_complete limit deep self h :
  nesting_within (S limit) h self ∨ deep = false →
  ∃ params,
    get_params (S limit) deep self h = (h, Ok params) ∧
    (∀ p, p ∈ signature h self → hasattr h self p = true → is_Some (params !! p)) ∧
    (deep = true → ∀ name l sps k',
       name ∈ signature h self → getattr h self name = Some (VRef l) →
       has_get_params h (VRef l) = true →
       (get_params limit deep l h).2 = Ok sps → is_Some (sps !! k') →
       is_Some (params !! (name +:+ "__" +:+ k'))).
Proof.
  intros Hn.
  destruct (get_params_returns (S limit) deep self h) as [params Hrun];
    [naive_solver|].
  exists params. split; [done|]. rewrite get_params_S in Hrun.
  destruct (for_each_get_params_dom (get_params limit deep) deep self h
              (signature h self) ∅ params
              (λ l, get_params_read_only limit deep l h))
    as (_ & Hattr & Hflat); [by rewrite Hrun|].
  split; [|done]. intros p Hp Hexp. apply Hattr; [done|]. by apply hasattr_true.
Qed.

Lemma for_each_ok_inv {S A B} (xs : list A) (body : A → B → SE S B) acc s r :
  (∀ x acc, (body x acc s).1 = s) →
  (for_each xs body acc s).2 = Ok r →
  ∀ x, x ∈ xs → ∃ acc' r', (body x acc' s).2 = Ok r'.
Proof.
  intros Hro. revert acc. induction xs as [|y xs IH]; intros acc Hrun x Hx.
  { by apply elem_of_nil in Hx. }
  rewrite for_each_cons in Hrun. pose proof (Hro y acc) as Hh.
  destruct (body y acc s) as [s' [acc'|e]] eqn:Hbody; simpl in Hh; subst s'; [|done].
  apply elem_of_cons in Hx as [->|Hx].
  - exists acc, acc'. by rewrite Hbody.
  - by eapply IH.
Qed.

Lemma for_each_raise_inv {S A B} (xs : list A) (body : A → B → SE S B) acc s e :
  (∀ x acc, (body x acc s).1 = s) →
  (for_each xs body acc s).2 = Raise e →
  ∃ x acc', x ∈ xs ∧ (body x acc' s).2 = Raise e.
Proof.
  intros Hro. revert acc. induction xs as [|y xs IH]; intros acc Hrun; [done|].
  rewrite for_each_cons in Hrun. pose proof (Hro y acc) as Hh.
  destruct (body y acc s) as [s' [acc'|e']] eqn:Hbody; simpl in Hh; subst s'.
  - destruct (IH acc' Hrun) as (x & a & ? & ?). exists x, a. split; [set_solver|done].
  - simpl in Hrun. simplify_eq. exists y, acc. split; [set_solver|by rewrite Hbody].
Qed.

Lemma get_params_raises_recursion limit deep self h e :
  (get_params limit deep self h).2 = Raise e → e = RecursionError.
Proof.
  revert self. induction limit as [|limit IH]; intros self Hrun.
  { simpl in Hrun. by simplify_eq. }
  rewrite get_params_S in Hrun.
  apply for_each_raise_inv in Hrun as (x & acc & _ & Hbody).
  - rewrite get_params_body_eq in Hbody.
    destruct (getattr h self x) as [value|]; [|done].
    destruct (deep && has_get_params h value); [|done].
    destruct value; try done. specialize (IH l).
    destruct (get_params limit deep l h) as [? [?|?]]; [done|].
    simpl in *. simplify_eq. by apply IH.
  - intros. apply get_params_body_read_only. intros. apply get_params_read_only.
Qed.

Lemma get_params_returns_inv limit self h params :
  (get_params limit true self h).2 = Ok params → nesting_within limit h self.
Proof.
  revert self params. induction limit as [|limit IH]; intros self params Hrun; [done|].
  intros name l Hname Hattr Hnested. rewrite get_params_S in Hrun.
  eapply for_each_ok_inv in Hrun as (acc & r & Hbody); [|intros|exact Hname].
  - rewrite get_params_body_eq, Hattr, Hnested in Hbody. simpl in Hbody.
    destruct (get_params limit true l h) as [? [sps|?]] eqn:Hrec; [|done].
    apply (IH l sps). by rewrite Hrec.
  - apply get_params_body_read_only. intros. apply get_params_read_only.
Qed.

Lemma for_each_ok_mono {S A B} (xs : list A) (body1 body2 : A → B → SE S B) acc s r :
  (∀ x acc, (body1 x acc s).1 = s) →
  (∀ x acc r, body1 x acc s = (s, Ok r) → body2 x acc s = (s, Ok r)) →
  for_each xs body1 acc s = (s, Ok r) → for_each xs body2 acc s = (s, Ok r).
Proof.
  intros Hro Hmono. revert acc. induction xs as [|x xs IH]; intros acc Hrun; [done|].
  rewrite for_each_cons in Hrun. rewrite for_each_cons.
  pose proof (Hro x acc) as Hh.
  destruct (body1 x acc s) as [s' [acc'|e]] eqn:Hbody; simpl in Hh; subst s'; [|done].
  rewrite (Hmono x acc acc' Hbody). by apply IH.
Qed.

(** A call that returns with room for [limit] nested frames returns the
    same with room for more. *)
Lemma get_params_more_fuel limit limit' deep self h params :
  (limit ≤ limit')%nat →
  get_params limit deep self h = (h, Ok params) →
  get_params limit' deep self h = (h, Ok params).
Proof.
  intros Hle Hrun. induction Hle as [|limit' _ IHle]; [done|].
  clear Hrun. revert self params IHle.
  induction limit' as [|n IH]; intros self params Hrun; [done|].
  rewrite get_params_S in Hrun. rewrite get_params_S.
  eapply for_each_ok_mono; [| |exact Hrun].
  - intros. apply get_params_body_read_only. intros. apply get_params_read_only.
  - intros name acc r. rewrite !get_params_body_eq.
    destruct (getattr h self name) as [value|]; [|done].
    destruct (deep && has_get_params h value); [|done].
    destruct value; try done.
    destruct (get_params n deep l h) as [h' [sps|e]] eqn:Hrec; [|done].
    intros [= -> <-]. by rewrite (IH l sps Hrec).
Qed.

(** X10.  [get_params(deep=True)] with room for [limit] nested frames of
    itself: the heap is untouched; if it returns, the chain of nested
    parameterized values below the instance is shorter than [limit], and
    with more room it returns the same mapping; the only exception it raises
    is [RecursionError]. *)
Theorem get_params_deep_returns_bounded limit self h :
  (get_params limit true self h).1 = h ∧
  (∀ params, (get_params limit true self h).2 = Ok params →
     nesting_within limit h self ∧
     ∀ limit', (limit ≤ limit')%nat →
       get_params limit' true self h = (h, Ok params)) ∧
  (∀ e, (get_params limit true self h).2 = Raise e → e = RecursionError).
Proof.
  split; [apply get_params_read_only|]. split.
  - intros params Hrun. split; [by eapply get_params_returns_inv|].
    intros limit' Hle. apply (get_params_more_fuel limit); [done|].
    pose proof (get_params_read_only limit true self h) as Hh.
    destruct (get_params limit true self h) as [h' r]. simpl in *. by subst.
  - apply get_params_raises_recursion.
Qed.

(** X11.  An instance that is its own parameter (a cycle in the object
    graph) makes [get_params(deep=True)] raise [RecursionError] at every
    recursion limit. *)
Theorem get_params_cycle_raises limit self h name :
  name ∈ signature h self →
  getattr h self name = Some (VRef self) →
  has_get_params h (VRef self) = true →
  get_params limit true self h = (h, Raise RecursionError).
Proof.
  intros Hname Hattr Hnested.
  assert (∀ n, ¬ nesting_within n h self) as Hcycle.
  { induction n as [|n IHn]; [by intros []|]. intros Hn. apply IHn. by eapply Hn. }
  pose proof (get_params_read_only limit true self h) as Hh.
  destruct (get_params limit true self h) as [h' [params|e]] eqn:Hrun;
    simpl in Hh; subst h'.
  - destruct (Hcycle limit). apply (get_params_returns_inv _ _ _ params).
    by rewrite Hrun.
  - do 2 f_equal. apply (get_params_raises_recursion limit true self h).
    by rewrite Hrun.
Qed.

(** X12.  Loading and then asking for the parameters: after a successful
    [load], the shallow parameters of the instance hold, for every
    constructor parameter that is a field of the loaded state, the loaded
    value; the other parameters are as the instance had them. *)
Theorem load_then_get_params (pickle_load : string → Py value)
    self file h h1 lo o stored limit :
  pickle_load file h = (h1, Ok (VRef lo)) →
  h1 !! self = Some o →
  h1 !! lo = Some stored →
  ∃ h2 params,
    load pickle_load self file h = (h2, Ok tt) ∧
    get_params (S limit) false self h2 = (h2, Ok params) ∧
    (∀ p v, p ∈ cls_params (obj_class o) → obj_dict stored !! p = Some v →
       params !! p = Some v) ∧
    (∀ p, p ∈ cls_params (obj_class o) → obj_dict stored !! p = None →
       params !! p = getattr h1 self p).
Proof.
  intros Hload Hself Hlo.
  set (o' := Object (obj_class o) (dict_update (obj_dict o) (obj_dict stored))).
  destruct (get_params_shallow_lookup limit self (<[self := o']> h1))
    as (params & Hrun & Hlook).
  exists (<[self := o']> h1), params. split_and!; [|done| |].
  - unfold load, mbind, SE_bind. rewrite Hload. unfold get_dict. rewrite Hlo.
    by apply update_dict_eq.
  - intros p v Hp Hv. rewrite Hlook. unfold signature, getattr.
    rewrite lookup_insert_eq. simpl. rewrite decide_True by done.
    by rewrite lookup_dict_update, Hv.
  - intros p Hp Hv. rewrite Hlook. unfold signature, getattr.
    rewrite lookup_insert_eq, Hself. simpl. rewrite decide_True by done.
    by rewrite lookup_dict_update, Hv.
Qed.

(** X13.  Whatever [adapt] returns implements the Recommender capability,
    given that what [TopN] builds does; and an exception of [adapt] is an
    exception of the [TopN] constructor on an algorithm that is not a
    Recommender. *)
Theorem adapt_returns_recommender (TopN : value → Py value) :
  (∀ algo h h' w, TopN algo h = (h', Ok w) → isinstance h' w "Recommender" = true) →
  ∀ X h h',
    (∀ Y, adapt TopN X h = (h', Ok Y) → isinstance h' Y "Recommender" = true) ∧
    (∀ e, adapt TopN X h = (h', Raise e) →
       isinstance h X "Recommender" = false ∧ TopN X h = (h', Raise e)).
Proof.
  intros HTopN X h h'. unfold adapt, mbind, SE_bind, gets.
  destruct (isinstance h X "Recommender") eqn:HX; split.
  - intros Y [= <- <-]. done.
  - intros e. done.
  - intros Y HY. by eapply HTopN.
  - intros e He. done.
Qed.

(** *** Instances *)

Lemma length_flattened name k : (2 ≤ String.length (name +:+ "__" +:+ k))%nat.
Proof. induction name as [|c name IH]; simpl in *; lia. Qed.

Lemma get_params_deep_parameters_witness :
  ∃ params,
    get_params 2 true 1 sample_heap = (sample_heap, Ok params) ∧
    ∀ p, p ∈ signature sample_heap 1 → params !! p = getattr sample_heap 1 p.
Proof.
  apply (get_params_deep_parameters 1 1 sample_heap).
  - intros name l Hname Hattr _.
    assert (name = "a" ∨ name = "b") as [-> | ->] by (vm_compute in Hname; set_solver).
    + vm_compute in Hattr. discriminate Hattr.
    + vm_compute in Hattr. injection Hattr as <-. intros name' l' Hname' Hattr' Hn'.
      assert (name' = "c") as -> by (vm_compute in Hname'; set_solver).
      vm_compute in Hattr'. discriminate Hattr'.
  - intros p name k' Hp _ Heq.
    assert (p = "a" ∨ p = "b") as Hpp by (vm_compute in Hp; set_solver).
    pose proof (length_flattened name k') as Hlen. rewrite <- Heq in Hlen.
    destruct Hpp as [-> | ->]; simpl in Hlen; lia.
Defined.

Lemma get_params_keys_complete_witness :
  ∃ params,
    get_params 2 true 3 sample_heap = (sample_heap, Ok params) ∧
    (∀ p, p ∈ signature sample_heap 3 → hasattr sample_heap 3 p = true →
       is_Some (params !! p)) ∧
    (true = true → ∀ name l sps k',
       name ∈ signature sample_heap 3 → getattr sample_heap 3 name = Some (VRef l) →
       has_get_params sample_heap (VRef l) = true →
       (get_params 1 true l sample_heap).2 = Ok sps → is_Some (sps !! k') →
       is_Some (params !! (name +:+ "__" +:+ k'))).
Proof.
  apply (get_params_keys_complete 1 true 3 sample_heap). left.
  intros name l Hname Hattr _.
  assert (name = "b" ∨ name = "b__c") as [-> | ->] by (vm_compute in Hname; set_solver).
  - vm_compute in Hattr. injection Hattr as <-. intros name' l' Hname' Hattr' Hn'.
    assert (name' = "c") as -> by (vm_compute in Hname'; set_solver).
    vm_compute in Hattr'. discriminate Hattr'.
  - vm_compute in Hattr. discriminate Hattr.
Defined.

Lemma get_params_cycle_raises_witness :
  get_params 1000 true 1 cyclic_heap = (cyclic_heap, Raise RecursionError).
Proof.
  apply (get_params_cycle_raises 1000 1 cyclic_heap "inner"); [by_compute|done|done].
Defined.

Lemma load_then_get_params_witness :
  ∃ h2 params,
    load sample_pickle_load 2 "model.pkl" sample_heap = (h2, Ok tt) ∧
    get_params 1 false 2 h2 = (h2, Ok params) ∧
    (∀ p v, p ∈ cls_params Inner → obj_dict stored_object !! p = Some v →
       params !! p = Some v) ∧
    (∀ p, p ∈ cls_params Inner → obj_dict stored_object !! p = None →
       params !! p =
         getattr (<[fresh (dom sample_heap) := stored_object]> sample_heap) 2 p).
Proof.
  apply (load_then_get_params sample_pickle_load 2 "model.pkl" sample_heap
           (<[fresh (dom sample_heap) := stored_object]> sample_heap)
           (fresh (dom sample_heap))
           (Object Inner {[ "c" := VInt 7 ]}) stored_object 0).
  - reflexivity.
  - by vm_compute.
  - by rewrite lookup_insert_eq.
Defined.

Lemma adapt_returns_recommender_witness :
  (∀ Y, adapt TopN_new (VRef 4) sample_heap =
          ((adapt TopN_new (VRef 4) sample_heap).1, Ok Y) →
     isinstance (adapt TopN_new (VRef 4) sample_heap).1 Y "Recommender" = true) ∧
  (∀ e, adapt TopN_new (VRef 4) sample_heap =
          ((adapt TopN_new (VRef 4) sample_heap).1, Raise e) →
     isinstance sample_heap (VRef 4) "Recommender" = false ∧
     TopN_new (VRef 4) sample_heap =
       ((adapt TopN_new (VRef 4) sample_heap).1, Raise e)).
Proof.
  exact (adapt_returns_recommender TopN_new TopN_new_recommender (VRef 4) sample_heap
           (adapt TopN_new (VRef 4) sample_heap).1).
Defined.

End ObjectsMore.
